(** * Bitbucket to GitHub migrator: a shallow embedding in Rocq

    Sources embedded here:
    - [src/bitbucket-to-github-migrator.py]: [load_state], [save_state],
      [apply_existing_state] and the mirroring loop of [main];
    - [src/origin_updater.py]: [parse_bitbucket_origin], [build_updates],
      [apply_updates] (module [OriginUpdater]);
    - [src/update-git-origins.py]: its own copies of [load_state],
      [parse_bitbucket_origin], [build_updates], [apply_updates]
      (module [UpdateGitOrigins]).
    Also embedded from [src/bitbucket-to-github-migrator.py]: the JSON
    written by [save_state], [create_github_repo], [run_git_with_retry],
    [prompt], [prompt_yes_no], [pick_repos], [edit_plans], [env_value],
    [env_bool] and [load_dotenv] (the last four also in
    [src/update-git-origins.py]).

    The file system, git subprocesses, HTTP calls and prompts are given as
    an environment (results of each call); exceptions are explicit values. *)

From Stdlib Require Import Ascii String.
From stdpp Require Import base gmap strings list pretty sorting.

Open Scope string_scope.
#[local] Set Warnings "-register-all".

(* ------------------------------------------------------------------ *)
(** ** Python exceptions and fallible results *)

(** The two exception classes the code distinguishes: anything derived
    from [Exception] (what [except Exception] and [except RuntimeError]
    catch: [RuntimeError], HTTP, JSON and OS errors) and
    [KeyboardInterrupt], a [BaseException] that [except Exception] does
    not catch. *)
Inductive exn :=
| ExcException (msg : string)
| ExcKeyboardInterrupt.

Definition is_Exception (e : exn) : bool :=
  match e with ExcException _ => true | ExcKeyboardInterrupt => false end.

Inductive outcome (A : Type) :=
| Ok (a : A)
| Raise (e : exn).
Arguments Ok {A} a.
Arguments Raise {A} e.

(* ------------------------------------------------------------------ *)
(** ** JSON values as [json.load] returns them *)

(** Numbers are modelled as integers only (floats are not modelled). An
    object keeps its key/value pairs in file order; [json.load] turns it
    into a dict in which a later duplicate key overrides an earlier one
    ([py_dict_of_pairs], [obj_get]). *)
Inductive json :=
| JNull
| JBool (b : bool)
| JNum (z : Z)
| JStr (s : string)
| JArr (l : list json)
| JObj (l : list (string * json)).

(** [repr] of a loaded value (escapes inside strings and the collapsing
    of duplicate keys inside nested objects are not modelled). *)
Fixpoint py_repr (j : json) : string :=
  match j with
  | JNull => "None"
  | JBool true => "True"
  | JBool false => "False"
  | JNum z => pretty z
  | JStr s => "'" ++ s ++ "'"
  | JArr l =>
      "[" ++ (fix go (l : list json) : string :=
                match l with
                | [] => ""
                | [x] => py_repr x
                | x :: r => py_repr x ++ ", " ++ go r
                end) l ++ "]"
  | JObj l =>
      "{" ++ (fix go (l : list (string * json)) : string :=
                match l with
                | [] => ""
                | [(k, x)] => "'" ++ k ++ "': " ++ py_repr x
                | (k, x) :: r => "'" ++ k ++ "': " ++ py_repr x ++ ", " ++ go r
                end) l ++ "}"
  end.

(** Python's [str] of a loaded value. *)
Definition py_str (j : json) : string :=
  match j with
  | JStr s => s
  | _ => py_repr j
  end.

(** [d.get(k, default)] on a loaded object: the last pair with key [k]. *)
Definition obj_get (l : list (string * json)) (k : string) (default : json) : json :=
  fold_left (fun acc '(k', v) => if String.eqb k k' then v else acc) l default.

(** The dict [json.load] builds from an object's pairs. *)
Definition py_dict_of_pairs (l : list (string * json)) : gmap string json :=
  fold_left (fun m '(k, v) => <[k := v]> m) l ∅.

(** What reading the state file yields: the file is absent, [open] or
    the read fails, [json.load] fails, or the file parses to a value. *)
Inductive read_result :=
| FileMissing
| FileUnreadable
| FileUnparseable
| FileJson (j : json).

(* ------------------------------------------------------------------ *)
(** ** The State Ledger *)

(** A ledger record [Dict[str, str]] as the loaders build it: always the
    three keys [status], [target_owner], [target_name]. *)
Module Entry.
Record t := mk { status : string; target_owner : string; target_name : string }.
End Entry.

(** [Dict[str, Dict[str, str]]]: the ledger keyed by ["workspace/slug"]. *)
Abbreviation ledger := (gmap string Entry.t).

(** Python truthiness of a string. *)
Definition truthy (s : string) : bool := negb (String.eqb s "").

(* ------------------------------------------------------------------ *)
(** ** The two regular expressions of [parse_bitbucket_origin]

    Both files call [re.match] on the same two patterns:
    - [https://([^@]+@)?bitbucket\.org/([^/]+)/([^/]+?)(\.git)?$]
    - [git@bitbucket\.org:([^/]+)/([^/]+?)(\.git)?$]
    [re.match] anchors at the start only; [$] (no MULTILINE) matches at the
    end of the string or just before a final newline. The functions below
    follow Python's backtracking order and return the groups read by the
    code (workspace, repo). *)

Definition newline : ascii := "010".

(** [s] with the literal [p] removed from its front, if [p] starts it. *)
Fixpoint strip_prefix (p s : string) : option string :=
  match p, s with
  | "", _ => Some s
  | String c p', String c' s' => if Ascii.eqb c c' then strip_prefix p' s' else None
  | String _ _, "" => None
  end.

(** [$] *)
Definition re_dollar (rest : string) : bool :=
  match rest with
  | "" => true
  | String c "" => Ascii.eqb c newline
  | _ => false
  end.

(** [(\.git)?$]: the optional group is greedy, so [.git] is tried first. *)
Definition re_opt_git_dollar (rest : string) : bool :=
  match strip_prefix ".git" rest with
  | Some r => re_dollar r || re_dollar rest
  | None => re_dollar rest
  end.

(** [([^/]+?)(\.git)?$]: the lazy group takes one character, then tries
    to finish before taking one more. *)
Fixpoint re_lazy_repo (s : string) : option string :=
  match s with
  | "" => None
  | String c rest =>
      if Ascii.eqb c "/" then None
      else if re_opt_git_dollar rest then Some (String c "")
      else match re_lazy_repo rest with
           | Some r => Some (String c r)
           | None => None
           end
  end.

(** The run of characters before the first [d], and what follows [d]. *)
Fixpoint span_until (d : ascii) (s : string) : option (string * string) :=
  match s with
  | "" => None
  | String c r =>
      if Ascii.eqb c d then Some ("", r)
      else match span_until d r with
           | Some (a, b) => Some (String c a, b)
           | None => None
           end
  end.

(** [[^d]+d]: a shorter run than the maximal one is followed by a
    character other than [d], so the maximal run is the only candidate. *)
Definition re_plus_then (d : ascii) (s : string) : option (string * string) :=
  match span_until d s with
  | Some (a, b) => if String.eqb a "" then None else Some (a, b)
  | None => None
  end.

(** [([^/]+)/([^/]+?)(\.git)?$] *)
Definition re_tail (s : string) : option (string * string) :=
  match re_plus_then "/" s with
  | Some (ws, r) =>
      match re_lazy_repo r with
      | Some repo => Some (ws, repo)
      | None => None
      end
  | None => None
  end.

(** [bitbucket\.org/([^/]+)/([^/]+?)(\.git)?$] *)
Definition re_after_host (s : string) : option (string * string) :=
  match strip_prefix "bitbucket.org/" s with
  | Some r => re_tail r
  | None => None
  end.

(** [re.match] of the HTTPS pattern: groups 2 and 3. The optional
    credentials group is greedy: it is tried first, then skipped. *)
Definition re_match_https (origin : string) : option (string * string) :=
  match strip_prefix "https://" origin with
  | None => None
  | Some s =>
      match (match re_plus_then "@" s with
             | Some (_, r) => re_after_host r
             | None => None
             end) with
      | Some p => Some p
      | None => re_after_host s
      end
  end.

(** [re.match] of the SSH pattern: groups 1 and 2. *)
Definition re_match_ssh (origin : string) : option (string * string) :=
  match strip_prefix "git@bitbucket.org:" origin with
  | Some s => re_tail s
  | None => None
  end.

Module Migrator.

(** [load_state()] of bitbucket-to-github-migrator.py, lines 148-166. *)
Definition load_state (rd : read_result) : ledger :=
  match rd with
  | FileMissing => ∅
  | FileUnreadable | FileUnparseable => ∅  (* except Exception: return {} *)
  | FileJson (JObj l) =>
      omap (fun value =>
              match value with
              | JObj v =>
                  Some (Entry.mk (py_str (obj_get v "status" (JStr "pending")))
                                 (py_str (obj_get v "target_owner" (JStr "")))
                                 (py_str (obj_get v "target_name" (JStr ""))))
              | _ => None
              end) (py_dict_of_pairs l)
  | FileJson _ => ∅
  end.

End Migrator.


(* ------------------------------------------------------------------ *)
(** ** Local git repositories *)

(** Python's [str.strip()] on ASCII: the characters [str.isspace]
    accepts (9-13 and 28-32). *)
Definition py_isspace (c : ascii) : bool :=
  let n := nat_of_ascii c in ((9 <=? n) && (n <=? 13) || (28 <=? n) && (n <=? 32))%nat.

Fixpoint lstrip_chars (l : list ascii) : list ascii :=
  match l with
  | c :: r => if py_isspace c then lstrip_chars r else l
  | [] => []
  end.

Definition py_strip (s : string) : string :=
  string_of_list_ascii
    (rev (lstrip_chars (rev (lstrip_chars (list_ascii_of_string s))))).

(** The git subprocesses: for a working directory and an argv, the
    standard output when the return code is 0, [None] otherwise. *)
Definition git_env := string -> list string -> option string.

(** A git command run: working directory and argv. *)
Abbreviation gitcmd := (string * list string)%type.

Definition cmd_get_url : list string := ["git"; "remote"; "get-url"; "origin"].
Definition cmd_get_push_url : list string := ["git"; "remote"; "get-url"; "--push"; "origin"].
Definition cmd_set_url (url : string) : list string := ["git"; "remote"; "set-url"; "origin"; url].
Definition cmd_set_push_url (url : string) : list string :=
  ["git"; "remote"; "set-url"; "--push"; "origin"; url].

(** [run_git_capture] (origin_updater.py) and [run_git]
    (update-git-origins.py): same body, raise [RuntimeError] on failure. *)
Definition run_git_capture (env : git_env) (command : list string) (cwd : string) : outcome string :=
  match env cwd command with
  | Some stdout => Ok (py_strip stdout)
  | None => Raise (ExcException "Command failed")
  end.

(** [run_git_optional]: same body in both files. *)
Definition run_git_optional (env : git_env) (command : list string) (cwd : string) : option string :=
  match env cwd command with
  | None => None
  | Some stdout => let value := py_strip stdout in if truthy value then Some value else None
  end.

(** The [RepoUpdate] dataclass; both files declare it with the same fields. *)
Module RepoUpdate.
Record t := mk {
  path : string;
  current_origin : string;
  current_pushurl : option string;
  source_key : string;
  target_owner : string;
  target_name : string;
  new_origin : string;
  from_state : bool;
  update_pushurl : bool;
  pushurl_conflict : bool }.
End RepoUpdate.

(** The loop body of [build_updates] after the origin has been parsed:
    lines 76-109 of origin_updater.py, lines 104-137 of
    update-git-origins.py (identical text). *)
Definition make_update (repo_path origin : string) (pushurl : option string)
    (workspace repo : string) (state : ledger) (default_owner : string) : RepoUpdate.t :=
  let key := workspace ++ "/" ++ repo in
  let '(target_owner, target_name, from_state) :=
    match state !! key with
    | Some entry =>
        ((if truthy (Entry.target_owner entry) then Entry.target_owner entry else default_owner),
         (if truthy (Entry.target_name entry) then Entry.target_name entry else repo),
         true)
    | None => (default_owner, repo, false)
    end in
  let new_origin := "git@github.com:" ++ target_owner ++ "/" ++ target_name ++ ".git" in
  let '(update_pushurl, pushurl_conflict) :=
    match pushurl with
    | Some p =>
        if truthy p then (if String.eqb p origin then (true, false) else (false, true))
        else (false, false)
    | None => (false, false)
    end in
  RepoUpdate.mk repo_path origin pushurl key target_owner target_name new_origin
    from_state update_pushurl pushurl_conflict.

Module OriginUpdater.

(** [parse_bitbucket_origin], lines 49-60. *)
Definition parse_bitbucket_origin (origin : string) : option (string * string) :=
  match re_match_https origin with
  | Some (workspace, repo) => Some (workspace, repo)
  | None =>
      match re_match_ssh origin with
      | Some (workspace, repo) => Some (workspace, repo)
      | None => None
      end
  end.

(** [build_updates], lines 63-110: the updates and the git commands run.
    The origin is parsed before the push URL is queried. *)
Fixpoint build_updates (env : git_env) (repos : list string) (state : ledger)
    (default_owner : string) : list RepoUpdate.t * list gitcmd :=
  match repos with
  | [] => ([], [])
  | repo_path :: rest =>
      let q_origin := (repo_path, cmd_get_url) in
      match run_git_capture env cmd_get_url repo_path with
      | Raise _ =>  (* except RuntimeError: continue *)
          let '(us, cs) := build_updates env rest state default_owner in
          (us, q_origin :: cs)
      | Ok origin =>
          match parse_bitbucket_origin origin with
          | None =>
              let '(us, cs) := build_updates env rest state default_owner in
              (us, q_origin :: cs)
          | Some (workspace, repo) =>
              let pushurl := run_git_optional env cmd_get_push_url repo_path in
              let u := make_update repo_path origin pushurl workspace repo state default_owner in
              let '(us, cs) := build_updates env rest state default_owner in
              (u :: us, q_origin :: (repo_path, cmd_get_push_url) :: cs)
          end
      end
  end.


(** [apply_updates], lines 125-135: the list of conflicts, or the
    exception of the first failing [git remote set-url]; with the git
    commands run. *)
Fixpoint apply_updates (env : git_env) (updates : list RepoUpdate.t)
    : outcome (list RepoUpdate.t) * list gitcmd :=
  match updates with
  | [] => (Ok [], [])
  | item :: rest =>
      let c1 := (RepoUpdate.path item, cmd_set_url (RepoUpdate.new_origin item)) in
      match run_git_capture env c1.2 c1.1 with
      | Raise e => (Raise e, [c1])
      | Ok _ =>
          let '(r2, cs2) :=
            if RepoUpdate.update_pushurl item then
              let c2 := (RepoUpdate.path item, cmd_set_push_url (RepoUpdate.new_origin item)) in
              match run_git_capture env c2.2 c2.1 with
              | Raise e => (Some e, [c2])
              | Ok _ => (None, [c2])
              end
            else (None, []) in
          match r2 with
          | Some e => (Raise e, c1 :: cs2)
          | None =>
              let '(r, cs) := apply_updates env rest in
              (match r with
               | Ok conflicts =>
                   Ok (if RepoUpdate.pushurl_conflict item then item :: conflicts else conflicts)
               | Raise e => Raise e
               end, c1 :: (cs2 ++ cs)%list)
          end
      end
  end.

End OriginUpdater.

Module UpdateGitOrigins.

(** [load_state(path)] of update-git-origins.py, lines 45-60: [open] and
    [json.load] are not guarded, so their failures propagate. *)
Definition load_state (rd : read_result) : outcome ledger :=
  match rd with
  | FileMissing => Ok ∅
  | FileUnreadable => Raise (ExcException "OSError")
  | FileUnparseable => Raise (ExcException "JSONDecodeError")
  | FileJson (JObj l) =>
      Ok (omap (fun value =>
                  match value with
                  | JObj v =>
                      Some (Entry.mk (py_str (obj_get v "status" (JStr "")))
                                     (py_str (obj_get v "target_owner" (JStr "")))
                                     (py_str (obj_get v "target_name" (JStr ""))))
                  | _ => None
                  end) (py_dict_of_pairs l))
  | FileJson _ => Ok ∅
  end.


(** [run_git], lines 28-34. *)
Definition run_git (env : git_env) (command : list string) (cwd : string) : outcome string :=
  match env cwd command with
  | Some stdout => Ok (py_strip stdout)
  | None => Raise (ExcException "Command failed")
  end.

(** [parse_bitbucket_origin], lines 76-88. *)
Definition parse_bitbucket_origin (origin : string) : option (string * string) :=
  match re_match_https origin with
  | Some (workspace, repo) => Some (workspace, repo)
  | None =>
      match re_match_ssh origin with
      | Some (workspace, repo) => Some (workspace, repo)
      | None => None
      end
  end.

(** [build_updates], lines 91-138: the push URL is queried before the
    origin is parsed. *)
Fixpoint build_updates (env : git_env) (repos : list string) (state : ledger)
    (default_owner : string) : list RepoUpdate.t * list gitcmd :=
  match repos with
  | [] => ([], [])
  | repo_path :: rest =>
      let q_origin := (repo_path, cmd_get_url) in
      match run_git env cmd_get_url repo_path with
      | Raise _ =>  (* except RuntimeError: continue *)
          let '(us, cs) := build_updates env rest state default_owner in
          (us, q_origin :: cs)
      | Ok origin =>
          let pushurl := run_git_optional env cmd_get_push_url repo_path in
          let q_push := (repo_path, cmd_get_push_url) in
          match parse_bitbucket_origin origin with
          | None =>
              let '(us, cs) := build_updates env rest state default_owner in
              (us, q_origin :: q_push :: cs)
          | Some (workspace, repo) =>
              let u := make_update repo_path origin pushurl workspace repo state default_owner in
              let '(us, cs) := build_updates env rest state default_owner in
              (u :: us, q_origin :: q_push :: cs)
          end
      end
  end.

(** [apply_updates], lines 153-163: the list of conflicts, or the
    exception of the first failing [git remote set-url]; with the git
    commands run. *)
Fixpoint apply_updates (env : git_env) (updates : list RepoUpdate.t)
    : outcome (list RepoUpdate.t) * list gitcmd :=
  match updates with
  | [] => (Ok [], [])
  | item :: rest =>
      let c1 := (RepoUpdate.path item, cmd_set_url (RepoUpdate.new_origin item)) in
      match run_git env c1.2 c1.1 with
      | Raise e => (Raise e, [c1])
      | Ok _ =>
          let '(r2, cs2) :=
            if RepoUpdate.update_pushurl item then
              let c2 := (RepoUpdate.path item, cmd_set_push_url (RepoUpdate.new_origin item)) in
              match run_git env c2.2 c2.1 with
              | Raise e => (Some e, [c2])
              | Ok _ => (None, [c2])
              end
            else (None, []) in
          match r2 with
          | Some e => (Raise e, c1 :: cs2)
          | None =>
              let '(r, cs) := apply_updates env rest in
              (match r with
               | Ok conflicts =>
                   Ok (if RepoUpdate.pushurl_conflict item then item :: conflicts else conflicts)
               | Raise e => Raise e
               end, c1 :: (cs2 ++ cs)%list)
          end
      end
  end.

End UpdateGitOrigins.

(* ------------------------------------------------------------------ *)
(** ** The Migration Orchestrator (bitbucket-to-github-migrator.py) *)

Module BitbucketRepo.
Record t := mk { workspace : string; slug : string; name : string;
                 https_clone : string; web_url : string }.
End BitbucketRepo.

Module RepoPlan.
Record t := mk { source : BitbucketRepo.t; target_owner : string;
                 target_name : string; status : string }.

(** [plan.status = s] *)
Definition with_status (p : t) (s : string) : t :=
  mk (source p) (target_owner p) (target_name p) s.

(** [plan.target_owner = o; plan.target_name = n] *)
Definition with_target (p : t) (o n : string) : t :=
  mk (source p) o n (status p).
End RepoPlan.

Module Orchestrator.

(** [source_key], lines 144-145. *)
Definition source_key (repo : BitbucketRepo.t) : string :=
  BitbucketRepo.workspace repo ++ "/" ++ BitbucketRepo.slug repo.

Definition plan_key (plan : RepoPlan.t) : string := source_key (RepoPlan.source plan).

Definition plan_record (plan : RepoPlan.t) : Entry.t :=
  Entry.mk (RepoPlan.status plan) (RepoPlan.target_owner plan) (RepoPlan.target_name plan).

(** [save_state(plans)], lines 169-178: the mapping written to the state
    file, which replaces the previous contents. A later plan with the same
    key overrides an earlier one, as a dict assignment does. *)
Definition save_state (plans : list RepoPlan.t) : ledger :=
  fold_left (fun data plan => <[plan_key plan := plan_record plan]> data) plans ∅.

(** The body of [apply_existing_state]'s loop, lines 186-193, on one plan. *)
Definition apply_record (state : ledger) (plan : RepoPlan.t) : RepoPlan.t :=
  match state !! plan_key plan with
  | Some entry =>
      let plan := RepoPlan.with_status plan (Entry.status entry) in
      let existing_owner := Entry.target_owner entry in
      let existing_name := Entry.target_name entry in
      if truthy existing_owner && truthy existing_name
      then RepoPlan.with_target plan existing_owner existing_name
      else plan
  | None => plan
  end.

(** [apply_existing_state(plans)], lines 181-194, with the state file
    read by its call to [load_state()]. The plans are updated in place;
    the updated list is returned. *)
Definition apply_existing_state (rd : read_result) (plans : list RepoPlan.t) : list RepoPlan.t :=
  let state := Migrator.load_state rd in
  if (size state =? 0)%nat then plans
  else apply_record state <$> plans.

(** The outside world of the mirroring loop, per loop position [i]
    (0-based): the HTTP calls, the prompt and the git mirror. *)
Record env := {
  gh_username : string;
  (** [create_github_repo(token, owner, owner_is_user, name)] *)
  create_github_repo : nat -> string -> bool -> string -> outcome (bool * string);
  (** [fetch_github_repo_info] followed by the [is_empty] expression *)
  fetch_is_empty : nat -> string -> string -> outcome bool;
  (** [prompt_yes_no("... is not empty. Push mirror anyway?")] *)
  prompt_push_anyway : nat -> outcome bool;
  (** [mirror_repo(plan.source, ..., target_owner, target_name, ...)] *)
  mirror_repo : nat -> BitbucketRepo.t -> string -> string -> outcome unit }.

(** Observable effects: ledger saves and calls to the outside world. *)
Inductive event :=
| ESave (data : ledger)
| ECreate (i : nat) (owner name : string)
| EInfo (i : nat)
| EPrompt (i : nat)
| EMirror (i : nat).

(** The loop position an outside call belongs to. *)
Definition event_index (ev : event) : option nat :=
  match ev with
  | ESave _ => None
  | ECreate i _ _ | EInfo i | EPrompt i | EMirror i => Some i
  end.

(** The [try:] block of the loop, lines 609-644, for the plan [p] at
    position [i] of [plans] (whose status is already ["in_progress"]):
    the plans after the block, or the exception escaping it. *)
Definition try_block (E : env) (i : nat) (p : RepoPlan.t) (plans : list RepoPlan.t)
    : outcome (list RepoPlan.t) * list event :=
  let owner := RepoPlan.target_owner p in
  let name := RepoPlan.target_name p in
  let owner_is_user := String.eqb owner (gh_username E) in
  let mirror_step (evs : list event) :=
    match mirror_repo E i (RepoPlan.source p) owner name with
    | Raise e => (Raise e, (evs ++ [EMirror i])%list)
    | Ok _ =>
        let plans' := <[i := RepoPlan.with_status p "done"]> plans in
        (Ok plans', (evs ++ [EMirror i; ESave (save_state plans')])%list)
    end in
  match create_github_repo E i owner owner_is_user name with
  | Raise e => (Raise e, [ECreate i owner name])
  | Ok (created, status) =>
      if String.eqb status "exists" then
        match fetch_is_empty E i owner name with
        | Raise e => (Raise e, [ECreate i owner name; EInfo i])
        | Ok is_empty =>
            if is_empty then mirror_step [ECreate i owner name; EInfo i]
            else
              match prompt_push_anyway E i with
              | Raise e => (Raise e, [ECreate i owner name; EInfo i; EPrompt i])
              | Ok proceed =>
                  if proceed then mirror_step [ECreate i owner name; EInfo i; EPrompt i]
                  else
                    let plans' := <[i := RepoPlan.with_status p "pending"]> plans in
                    (Ok plans', [ECreate i owner name; EInfo i; EPrompt i; ESave (save_state plans')])
              end
        end
      else mirror_step [ECreate i owner name]
  end.

(** One iteration of the loop, lines 599-650: the plans after it, the
    effects, and an exception that escapes [except Exception]. *)
Definition migrate_one (E : env) (i : nat) (plans : list RepoPlan.t)
    : list RepoPlan.t * list event * option exn :=
  match plans !! i with
  | None => (plans, [], None)
  | Some p =>
      if String.eqb (RepoPlan.status p) "done" then (plans, [], None)
      else
        let plans1 := <[i := RepoPlan.with_status p "in_progress"]> plans in
        let ev0 := ESave (save_state plans1) in
        match try_block E i p plans1 with
        | (Ok plans2, evs) => (plans2, ev0 :: evs, None)
        | (Raise e, evs) =>
            if is_Exception e then
              let plans2 := <[i := RepoPlan.with_status p "pending"]> plans1 in
              (plans2, ev0 :: (evs ++ [ESave (save_state plans2)])%list, None)
            else (plans1, ev0 :: evs, Some e)
        end
  end.

Fixpoint migrate_loop (E : env) (idxs : list nat) (plans : list RepoPlan.t)
    : list RepoPlan.t * list event * option exn :=
  match idxs with
  | [] => (plans, [], None)
  | i :: rest =>
      match migrate_one E i plans with
      | (plans', evs, None) =>
          let '(plans'', evs', r) := migrate_loop E rest plans' in
          (plans'', (evs ++ evs')%list, r)
      | (plans', evs, Some e) => (plans', evs, Some e)
      end
  end.

(** [for idx, plan in enumerate(plans, start=1): ...], lines 598-650. *)
Definition main_loop (E : env) (plans : list RepoPlan.t) : list RepoPlan.t * list event * option exn :=
  migrate_loop E (seq 0 (length plans)) plans.

End Orchestrator.

Module StateFile.
Import Orchestrator.

Definition entry_json (e : Entry.t) : json :=
  JObj [("status", JStr (Entry.status e));
        ("target_name", JStr (Entry.target_name e));
        ("target_owner", JStr (Entry.target_owner e))].

Definition key_le (a b : string * Entry.t) : Prop := String.leb a.1 b.1 = true.

#[export] Instance key_le_dec : RelDecision key_le :=
  fun a b => decide (String.leb a.1 b.1 = true).

Definition save_state_json (plans : list RepoPlan.t) : json :=
  JObj (prod_map id entry_json <$> merge_sort key_le (map_to_list (save_state plans))).
End StateFile.


(* ------------------------------------------------------------------ *)
(** ** Python string helpers *)

(** [str.lower()] on ASCII letters. *)
Definition py_lower_char (c : ascii) : ascii :=
  let n := nat_of_ascii c in
  if ((65 <=? n) && (n <=? 90))%nat then ascii_of_nat (n + 32) else c.

Definition py_lower (s : string) : string :=
  string_of_list_ascii (map py_lower_char (list_ascii_of_string s)).

(** [needle in hay] for strings. *)
Fixpoint py_contains (needle hay : string) : bool :=
  String.prefix needle hay ||
  match hay with
  | EmptyString => false
  | String _ rest => py_contains needle rest
  end.

(** The keys of the dict built from an object's pairs, in insertion order. *)
Definition py_dict_keys (l : list (string * json)) : list string :=
  fold_left (fun ks '(k, _) => if decide (k ∈ ks) then ks else (ks ++ [k])%list) l [].

(** [for x in value]: the items iterated over, or [None] when the value is
    not iterable ([TypeError]). *)
Definition py_iter (j : json) : option (list json) :=
  match j with
  | JArr l => Some l
  | JObj l => Some (JStr <$> py_dict_keys l)
  | JStr s => Some ((fun c => JStr (String c EmptyString)) <$> list_ascii_of_string s)
  | _ => None
  end.

(* ------------------------------------------------------------------ *)
(** ** GitHub repository creation (bitbucket-to-github-migrator.py) *)

Module GitHub.

Definition GITHUB_API : string := "https://api.github.com".

(** [http_json(url, method, headers, body)]: the status and the decoded
    body, or the exception it raises ([RuntimeError] on a network error,
    a decoding error of a successful response). *)
Definition http_env := string -> string -> list (string * string) -> option json -> outcome (Z * json).

(** [github_auth_header], lines 136-137. *)
Definition github_auth_header (token : string) : list (string * string) :=
  [("Authorization", "Bearer " ++ token)].

(** The URL chosen by [create_github_repo], lines 334-337. *)
Definition create_repo_url (owner : string) (owner_is_user : bool) : string :=
  if owner_is_user then GITHUB_API ++ "/user/repos"
  else GITHUB_API ++ "/orgs/" ++ owner ++ "/repos".

Definition create_repo_body (repo_name : string) : json :=
  JObj [("name", JStr repo_name); ("private", JBool true)].

(** [create_github_repo], lines 328-351. *)
Definition create_github_repo (http : http_env) (token owner : string) (owner_is_user : bool)
    (repo_name : string) : outcome (bool * string) :=
  let headers := github_auth_header token in
  let body := create_repo_body repo_name in
  let url := create_repo_url owner owner_is_user in
  let failed (status : Z) (data : json) : outcome (bool * string) :=
    Raise (ExcException ("Failed to create GitHub repo " ++ owner ++ "/" ++ repo_name ++
                         " (status " ++ pretty status ++ "): " ++ py_str data)) in
  match http url "POST" headers (Some body) with
  | Raise e => Raise e
  | Ok (status, data) =>
      if bool_decide (status = 201 \/ status = 202)%Z then Ok (true, "created")
      else
        match (status =? 422)%Z, data with
        | true, JObj d =>
            let message := obj_get d "message" (JStr "") in
            let errors := obj_get d "errors" (JArr []) in
            match message with
            | JStr m =>
                if py_contains "already exists" (py_lower m) then Ok (false, "exists")
                else
                  match py_iter errors with
                  | None => Raise (ExcException "TypeError: object is not iterable")
                  | Some [] => failed status data
                  | Some (err :: _) =>
                      match err with
                      | JObj e =>
                          if py_contains "already exists"
                               (py_lower (py_str (obj_get e "message" (JStr ""))))
                          then Ok (false, "exists")
                          else Ok (false, "exists")
                      | _ => Ok (false, "exists")
                      end
                  end
            | _ => Raise (ExcException "AttributeError: object has no attribute 'lower'")
            end
        | _, _ => failed status data
        end
  end.

(** What one [run_git] call does: the command succeeds, exits with a
    non-zero code ([RuntimeError] with its message), or [subprocess.run]
    raises another exception. *)
Inductive run_result :=
| RunOk
| RunFailed (msg : string)
| RunRaised (e : exn).

(** An attempt (its message printed on failure) and a completed
    [time.sleep]. *)
Inductive retry_event :=
| RAttempt (attempt : Z)
| RSleep (seconds : Z).

(** The loop of [run_git_with_retry], lines 372-390, over the remaining
    attempt numbers, with the outcome of the [run_git] call of each
    attempt. *)
Fixpoint retry_loop (run : Z -> run_result) (retries delay_seconds : Z) (attempts : list Z)
    (last_error : option string) : outcome unit * list retry_event :=
  match attempts with
  | [] =>
      (match last_error with
       | Some m => Raise (ExcException m)
       | None => Ok tt
       end, [])
  | attempt :: rest =>
      match run attempt with
      | RunOk => (Ok tt, [RAttempt attempt])
      | RunRaised e => (Raise e, [RAttempt attempt])
      | RunFailed m =>
          if (retries <=? attempt)%Z then (Raise (ExcException m), [RAttempt attempt])
          (* [time.sleep] raises [ValueError] for a negative length *)
          else if (delay_seconds <? 0)%Z then
            (Raise (ExcException "ValueError: sleep length must be non-negative"), [RAttempt attempt])
          else
            let '(r, evs) := retry_loop run retries delay_seconds rest (Some m) in
            (r, RAttempt attempt :: RSleep delay_seconds :: evs)
      end
  end.

(** [run_git_with_retry(command, cwd, retries, delay_seconds)]:
    [for attempt in range(1, retries + 1)]. *)
Definition run_git_with_retry (run : Z -> run_result) (retries delay_seconds : Z)
    : outcome unit * list retry_event :=
  retry_loop run retries delay_seconds (seqZ 1 retries) None.

End GitHub.

(* ------------------------------------------------------------------ *)
(** ** Terminal input and the environment (bitbucket-to-github-migrator.py) *)

(** [input()] reads the next line of [inputs] (without its newline); at
    the end of the input it raises [EOFError]. The prompt texts and other
    printed output are not modelled. *)
Module Interactive.
Import Orchestrator.

Definition EOFError : exn := ExcException "EOFError".

(** [prompt(text, default)], lines 43-53: the value and the input left. *)
Fixpoint prompt (default : option string) (inputs : list string) : outcome string * list string :=
  match inputs with
  | [] => (Raise EOFError, [])
  | line :: rest =>
      let value := py_strip line in
      if truthy value then (Ok value, rest)
      else
        match default with
        | Some d => (Ok d, rest)
        | None => prompt default rest
        end
  end.

(** [prompt_yes_no(text, default)], lines 56-65. *)
Fixpoint prompt_yes_no (default : bool) (inputs : list string) : outcome bool * list string :=
  match inputs with
  | [] => (Raise EOFError, [])
  | line :: rest =>
      let value := py_lower (py_strip line) in
      if negb (truthy value) then (Ok default, rest)
      else if bool_decide (value ∈ ["y"; "yes"]) then (Ok true, rest)
      else if bool_decide (value ∈ ["n"; "no"]) then (Ok false, rest)
      else prompt_yes_no default rest
  end.

(** [s.split(sep)] for a one-character separator. *)
Fixpoint py_split_char_from (sep : ascii) (s : string) (cur : string) : list string :=
  match s with
  | EmptyString => [cur]
  | String x r =>
      if Ascii.eqb x sep then cur :: py_split_char_from sep r EmptyString
      else py_split_char_from sep r (cur ++ String x EmptyString)
  end.

Definition py_split_char (sep : ascii) (s : string) : list string :=
  py_split_char_from sep s EmptyString.

Definition is_ascii_digit (c : ascii) : bool :=
  let n := nat_of_ascii c in ((48 <=? n) && (n <=? 57))%nat.

(** [s.isdigit()] on ASCII. *)
Definition py_isdigit (s : string) : bool :=
  truthy s && forallb is_ascii_digit (list_ascii_of_string s).

(** [int(s)] on a string of ASCII digits. *)
Definition py_int (s : string) : nat :=
  fold_left (fun n c => n * 10 + (nat_of_ascii c - 48))%nat (list_ascii_of_string s) 0%nat.

(** [selected[i] = repos[i - 1]] *)
Definition select_index (repos : list BitbucketRepo.t) (selected : gmap nat BitbucketRepo.t)
    (i : nat) : gmap nat BitbucketRepo.t :=
  match repos !! (i - 1)%nat with
  | Some r => <[i := r]> selected
  | None => selected  (* an IndexError, which the callers' bounds exclude *)
  end.

(** [{i: repos[i - 1] for i in range(1, total + 1)}] *)
Definition select_all (repos : list BitbucketRepo.t) : gmap nat BitbucketRepo.t :=
  fold_left (select_index repos) (seq 1 (length repos)) ∅.

(** The body of the [for part in choice.split(",")] loop of [pick_repos],
    lines 307-323. *)
Definition pick_part (repos : list BitbucketRepo.t) (total : nat)
    (selected : gmap nat BitbucketRepo.t) (part : string) : gmap nat BitbucketRepo.t :=
  let part := py_strip part in
  if negb (truthy part) then selected
  else if py_contains "-" part then
    match span_until "-" part with
    | Some (start_str, end_str) =>
        if py_isdigit start_str && py_isdigit end_str then
          let start := py_int start_str in
          let end_ := py_int end_str in
          fold_left (fun sel i =>
                       if ((1 <=? i) && (i <=? total))%nat then select_index repos sel i else sel)
                    (seq start (end_ + 1 - start)) selected
        else selected
    | None => selected
    end
  else if py_isdigit part then
    let i := py_int part in
    if ((1 <=? i) && (i <=? total))%nat then select_index repos selected i else selected
  else selected.

(** [[selected[i] for i in sorted(selected)]] *)
Definition sorted_selection (selected : gmap nat BitbucketRepo.t) : list BitbucketRepo.t :=
  omap (fun i => selected !! i) (merge_sort Nat.le (map_to_list selected).*1).

(** The [while True] loop of [pick_repos], lines 290-324, from a
    selection. *)
Fixpoint pick_loop (repos : list BitbucketRepo.t) (selected : gmap nat BitbucketRepo.t)
    (inputs : list string) : outcome (list BitbucketRepo.t) * list string :=
  match inputs with
  | [] => (Raise EOFError, [])
  | line :: rest =>
      let choice := py_lower (py_strip line) in
      if negb (truthy choice) then pick_loop repos selected rest
      else if String.eqb choice "all" then pick_loop repos (select_all repos) rest
      else if String.eqb choice "none" then pick_loop repos ∅ rest
      else if String.eqb choice "done" then
        if bool_decide (selected = ∅) then pick_loop repos selected rest
        else (Ok (sorted_selection selected), rest)
      else
        pick_loop repos (fold_left (pick_part repos (length repos)) (py_split_char "," choice) selected) rest
  end.

(** [pick_repos(repos, state)], lines 262-325; [state] only annotates the
    printed list. *)
Definition pick_repos (repos : list BitbucketRepo.t) (inputs : list string)
    : outcome (list BitbucketRepo.t) * list string :=
  pick_loop repos ∅ inputs.

(** The run of non-whitespace characters at the front, and the rest. *)
Fixpoint span_token (l : list ascii) : list ascii * list ascii :=
  match l with
  | [] => ([], [])
  | c :: r =>
      if py_isspace c then ([], l)
      else let '(tok, rest) := span_token r in (c :: tok, rest)
  end.

(** [s.split(None, 1)] *)
Definition py_split_ws1 (s : string) : list string :=
  match lstrip_chars (list_ascii_of_string s) with
  | [] => []
  | l =>
      let '(tok, rest) := span_token l in
      match lstrip_chars rest with
      | [] => [string_of_list_ascii tok]
      | rest' => [string_of_list_ascii tok; string_of_list_ascii rest']
      end
  end.

(** [edit_plans(plans)], lines 458-507: the plans are edited in place and
    returned. *)
Fixpoint edit_plans (plans : list RepoPlan.t) (inputs : list string)
    : outcome (list RepoPlan.t) * list string :=
  match inputs with
  | [] => (Raise EOFError, [])
  | line :: rest =>
      let raw := py_strip line in
      if negb (truthy raw) then edit_plans plans rest
      else if String.eqb (py_lower raw) "done" then (Ok plans, rest)
      else
        match py_split_ws1 raw with
        | [part0; part1] =>
            if negb (py_isdigit part0) then edit_plans plans rest
            else
              let idx := py_int part0 in
              if negb ((1 <=? idx) && (idx <=? length plans))%nat then edit_plans plans rest
              else
                let value := py_strip part1 in
                if py_contains "/" value then
                  match span_until "/" value with
                  | Some (owner, name) =>
                      let owner := py_strip owner in
                      let name := py_strip name in
                      if negb (truthy owner) || negb (truthy name) then edit_plans plans rest
                      else
                        edit_plans (alter (fun p => RepoPlan.with_target p owner name)
                                          (idx - 1)%nat plans) rest
                  | None => edit_plans plans rest
                  end
                else
                  edit_plans (alter (fun p => RepoPlan.with_target p (RepoPlan.target_owner p) value)
                                    (idx - 1)%nat plans) rest
        | _ => edit_plans plans rest
        end
  end.

End Interactive.

Module Dotenv.

(** [os.environ] *)
Abbreviation environ := (gmap string string).

(** [env_value(name)], lines 68-72. *)
Definition env_value (env : environ) (name : string) : option string :=
  let value := env !! name in
  let value := match value with
               | Some v => if truthy v then Some (py_strip v) else Some v
               | None => None
               end in
  match value with
  | Some v => if truthy v then Some v else None
  | None => None
  end.

(** [env_bool(name)], lines 93-97. *)
Definition env_bool (env : environ) (name : string) : option bool :=
  match env_value env name with
  | None => None
  | Some value => Some (bool_decide (py_lower value ∈ ["1"; "true"; "yes"; "y"; "on"]))
  end.

Fixpoint lstrip_by (p : ascii -> bool) (l : list ascii) : list ascii :=
  match l with
  | c :: r => if p c then lstrip_by p r else l
  | [] => []
  end.

(** [s.strip(chars)] for a one-character set. *)
Definition py_strip_char (x : ascii) (s : string) : string :=
  string_of_list_ascii
    (rev (lstrip_by (Ascii.eqb x) (rev (lstrip_by (Ascii.eqb x) (list_ascii_of_string s))))).

Definition double_quote : ascii := "034".
Definition single_quote : ascii := "039".

(** The body of the [for raw in handle] loop of [load_dotenv], lines
    81-88. *)
Definition dotenv_line (env : environ) (raw : string) : environ :=
  let line := py_strip raw in
  if negb (truthy line) || String.prefix "#" line || negb (py_contains "=" line) then env
  else
    match span_until "=" line with
    | Some (key, value) =>
        let key := py_strip key in
        let value := py_strip_char single_quote (py_strip_char double_quote (py_strip value)) in
        if truthy key && bool_decide (env !! key = None) then <[key := value]> env else env
    | None => env
    end.

(** [load_dotenv(path)], lines 75-90, both files: [None] when the file
    does not exist, otherwise the lines read before the end of the file or
    before a read error (after which a warning is printed). *)
Definition load_dotenv (env : environ) (file : option (list string)) : environ :=
  match file with
  | None => env
  | Some lines => fold_left dotenv_line lines env
  end.

(** The assignment a line of the file makes, if any: the [key, value]
    pair of lines 82-87 when the key is not blank. *)
Definition dotenv_assignment (raw : string) : option (string * string) :=
  let line := py_strip raw in
  if negb (truthy line) || String.prefix "#" line || negb (py_contains "=" line) then None
  else
    match span_until "=" line with
    | Some (key, value) =>
        let key := py_strip key in
        let value := py_strip_char single_quote (py_strip_char double_quote (py_strip value)) in
        if truthy key then Some (key, value) else None
    | None => None
    end.

End Dotenv.

(* ================================================================== *)
(** * Properties *)

(* ------------------------------------------------------------------ *)
(** ** The Update Planner *)

Section Planner.

Variable env : git_env.
Variables (state : ledger) (default_owner : string).

(** Every update of origin_updater.py's planner comes from a repository
    whose origin was read and parsed, through [make_update]. *)
Lemma OU_build_updates_elem (repos : list string) (u : RepoUpdate.t) :
  u ∈ (OriginUpdater.build_updates env repos state default_owner).1 →
  ∃ repo_path origin workspace repo,
    repo_path ∈ repos ∧
    run_git_capture env cmd_get_url repo_path = Ok origin ∧
    OriginUpdater.parse_bitbucket_origin origin = Some (workspace, repo) ∧
    u = make_update repo_path origin (run_git_optional env cmd_get_push_url repo_path)
          workspace repo state default_owner.
Proof.
  induction repos as [|r rs IH]; simpl.
  - intros Hu. by apply not_elem_of_nil in Hu.
  - destruct (run_git_capture env cmd_get_url r) as [origin|e] eqn:Hg.
    + destruct (OriginUpdater.parse_bitbucket_origin origin) as [[w rp]|] eqn:Hp;
      destruct (OriginUpdater.build_updates env rs state default_owner) as [us cs] eqn:Hb;
      simpl; intros Hu.
      * apply elem_of_cons in Hu as [->|Hu].
        -- exists r, origin, w, rp. repeat split; auto. apply elem_of_cons; auto.
        -- destruct (IH Hu) as (rp' & o' & w' & r' & Hin & H1 & H2 & H3).
           exists rp', o', w', r'. repeat split; auto. apply elem_of_cons; auto.
      * destruct (IH Hu) as (rp' & o' & w' & r' & Hin & H1 & H2 & H3).
        exists rp', o', w', r'. repeat split; auto. apply elem_of_cons; auto.
    + destruct (OriginUpdater.build_updates env rs state default_owner) as [us cs] eqn:Hb.
      simpl; intros Hu.
      destruct (IH Hu) as (rp' & o' & w' & r' & Hin & H1 & H2 & H3).
      exists rp', o', w', r'. repeat split; auto. apply elem_of_cons; auto.
Qed.

(** The same for update-git-origins.py's planner. *)
Lemma UGO_build_updates_elem (repos : list string) (u : RepoUpdate.t) :
  u ∈ (UpdateGitOrigins.build_updates env repos state default_owner).1 →
  ∃ repo_path origin workspace repo,
    repo_path ∈ repos ∧
    UpdateGitOrigins.run_git env cmd_get_url repo_path = Ok origin ∧
    UpdateGitOrigins.parse_bitbucket_origin origin = Some (workspace, repo) ∧
    u = make_update repo_path origin (run_git_optional env cmd_get_push_url repo_path)
          workspace repo state default_owner.
Proof.
  induction repos as [|r rs IH]; simpl.
  - intros Hu. by apply not_elem_of_nil in Hu.
  - destruct (UpdateGitOrigins.run_git env cmd_get_url r) as [origin|e] eqn:Hg.
    + destruct (UpdateGitOrigins.parse_bitbucket_origin origin) as [[w rp]|] eqn:Hp;
      destruct (UpdateGitOrigins.build_updates env rs state default_owner) as [us cs] eqn:Hb;
      simpl; intros Hu.
      * apply elem_of_cons in Hu as [->|Hu].
        -- exists r, origin, w, rp. repeat split; auto. apply elem_of_cons; auto.
        -- destruct (IH Hu) as (rp' & o' & w' & r' & Hin & H1 & H2 & H3).
           exists rp', o', w', r'. repeat split; auto. apply elem_of_cons; auto.
      * destruct (IH Hu) as (rp' & o' & w' & r' & Hin & H1 & H2 & H3).
        exists rp', o', w', r'. repeat split; auto. apply elem_of_cons; auto.
    + destruct (UpdateGitOrigins.build_updates env rs state default_owner) as [us cs] eqn:Hb.
      simpl; intros Hu.
      destruct (IH Hu) as (rp' & o' & w' & r' & Hin & H1 & H2 & H3).
      exists rp', o', w', r'. repeat split; auto. apply elem_of_cons; auto.
Qed.

End Planner.

(** [run_git_optional] never yields an empty string. *)
Lemma run_git_optional_truthy (env : git_env) cmd cwd p :
  run_git_optional env cmd cwd = Some p → truthy p = true.
Proof.
  unfold run_git_optional. destruct (env cwd cmd) as [out|]; [|discriminate].
  destruct (truthy (py_strip out)) eqn:H; intros E; inversion E; subst; auto.
Qed.

(** The push-URL flags [make_update] computes from what was read. *)
Lemma make_update_flags repo_path origin pushurl workspace repo state default_owner :
  let u := make_update repo_path origin pushurl workspace repo state default_owner in
  RepoUpdate.current_origin u = origin ∧
  RepoUpdate.current_pushurl u = pushurl ∧
  match pushurl with
  | None => RepoUpdate.update_pushurl u = false ∧ RepoUpdate.pushurl_conflict u = false
  | Some p =>
      truthy p = true →
      (p = origin → RepoUpdate.update_pushurl u = true ∧ RepoUpdate.pushurl_conflict u = false) ∧
      (p ≠ origin → RepoUpdate.update_pushurl u = false ∧ RepoUpdate.pushurl_conflict u = true)
  end.
Proof.
  unfold make_update; cbv zeta.
  destruct (state !! (workspace ++ "/" ++ repo)) as [e|];
  destruct pushurl as [p|]; simpl; try done;
  (destruct (truthy p) eqn:Ht; [destruct (String.eqb p origin) eqn:He|]); simpl;
  (split; [done|split; [done|]]); intros Ht'; try congruence;
  (split; intros Hp;
   [ subst; rewrite String.eqb_refl in He; by inversion He
   | apply String.eqb_eq in He || apply String.eqb_neq in He; done ]).
Qed.

(** Both files' [parse_bitbucket_origin] compute the same function. *)
Lemma parse_bitbucket_origin_same (origin : string) :
  UpdateGitOrigins.parse_bitbucket_origin origin = OriginUpdater.parse_bitbucket_origin origin.
Proof. reflexivity. Qed.

(** Either planner: every update comes from a parsed origin through
    [make_update], with the push URL [run_git_optional] read. *)
Lemma build_updates_elem env repos state default_owner (u : RepoUpdate.t) :
  u ∈ (OriginUpdater.build_updates env repos state default_owner).1 ∨
  u ∈ (UpdateGitOrigins.build_updates env repos state default_owner).1 →
  ∃ repo_path origin workspace repo,
    OriginUpdater.parse_bitbucket_origin origin = Some (workspace, repo) ∧
    u = make_update repo_path origin (run_git_optional env cmd_get_push_url repo_path)
          workspace repo state default_owner.
Proof.
  intros [Hu|Hu].
  - destruct (OU_build_updates_elem env state default_owner repos u Hu)
      as (rp & o & w & r & _ & _ & Hp & ->). exists rp, o, w, r. auto.
  - destruct (UGO_build_updates_elem env state default_owner repos u Hu)
      as (rp & o & w & r & _ & _ & Hp & ->). exists rp, o, w, r. auto.
Qed.

(** A git environment for the examples: one repository at ["/src/widgets"]
    whose origin is [origin], and whose push-URL query prints [pushurl]
    (or fails when [None]). *)
Definition one_repo_env (origin : string) (pushurl : option string) : git_env :=
  fun cwd cmd =>
    if bool_decide (cwd = "/src/widgets") then
      if bool_decide (cmd = cmd_get_url) then Some (origin ++ String newline "")
      else if bool_decide (cmd = cmd_get_push_url) then pushurl
      else Some ""
    else None.

(** The ledger of the spec's scenario. *)
Definition acme_ledger : ledger :=
  {[ "acme/widgets" := Entry.mk "done" "acme-org" "widgets-v2" ]}.

(** C1 (as stated, refuted): when the push-URL query reads nothing, the
    planner does not set [update_pushurl]: both flags stay false. *)
Lemma build_updates_no_pushurl_flags_off :
  let ups := (OriginUpdater.build_updates
                (one_repo_env "git@bitbucket.org:acme/widgets.git" None)
                ["/src/widgets"] ∅ "me").1 in
  map RepoUpdate.current_pushurl ups = [None] ∧
  map RepoUpdate.update_pushurl ups = [false] ∧
  map RepoUpdate.pushurl_conflict ups = [false].
Proof. vm_compute. auto. Qed.

(** C1 (amended): for every update of either planner, when no push URL
    was read both flags are false; when one was read and equals the
    current origin, [update_pushurl] is set and [pushurl_conflict] is not;
    when one was read and differs, [pushurl_conflict] is set and
    [update_pushurl] is not. *)
Theorem build_updates_pushurl_policy env repos state default_owner (u : RepoUpdate.t) :
  u ∈ (OriginUpdater.build_updates env repos state default_owner).1 ∨
  u ∈ (UpdateGitOrigins.build_updates env repos state default_owner).1 →
  match RepoUpdate.current_pushurl u with
  | None => RepoUpdate.update_pushurl u = false ∧ RepoUpdate.pushurl_conflict u = false
  | Some p =>
      (p = RepoUpdate.current_origin u →
         RepoUpdate.update_pushurl u = true ∧ RepoUpdate.pushurl_conflict u = false) ∧
      (p ≠ RepoUpdate.current_origin u →
         RepoUpdate.update_pushurl u = false ∧ RepoUpdate.pushurl_conflict u = true)
  end.
Proof.
  intros Hu.
  destruct (build_updates_elem env repos state default_owner u Hu)
    as (rp & o & w & r & _ & ->).
  destruct (make_update_flags rp o (run_git_optional env cmd_get_push_url rp) w r state default_owner)
    as (Ho & Hp & Hf).
  rewrite Hp, Ho.
  destruct (run_git_optional env cmd_get_push_url rp) as [p|] eqn:E; [|exact Hf].
  exact (Hf (run_git_optional_truthy _ _ _ _ E)).
Qed.

Definition example_update_same_pushurl : RepoUpdate.t :=
  make_update "/src/widgets" "git@bitbucket.org:acme/widgets.git"
    (Some "git@bitbucket.org:acme/widgets.git") "acme" "widgets" ∅ "me".

Lemma build_updates_pushurl_policy_witness :
  example_update_same_pushurl ∈
    (OriginUpdater.build_updates
       (one_repo_env "git@bitbucket.org:acme/widgets.git"
          (Some "git@bitbucket.org:acme/widgets.git"))
       ["/src/widgets"] ∅ "me").1 ∧
  RepoUpdate.update_pushurl example_update_same_pushurl = true ∧
  RepoUpdate.pushurl_conflict example_update_same_pushurl = false.
Proof.
  assert (Hin : example_update_same_pushurl ∈
    (OriginUpdater.build_updates
       (one_repo_env "git@bitbucket.org:acme/widgets.git"
          (Some "git@bitbucket.org:acme/widgets.git"))
       ["/src/widgets"] ∅ "me").1) by (vm_compute; apply list_elem_of_here).
  split; [exact Hin|].
  exact (proj1 (build_updates_pushurl_policy _ _ _ _ _ (or_introl Hin)) eq_refl).
Defined.

(** C10: for every update of either planner, [update_pushurl] and
    [pushurl_conflict] are never both true, and both are false when no
    push URL was read. *)
Theorem build_updates_flags_exclusive env repos state default_owner (u : RepoUpdate.t) :
  u ∈ (OriginUpdater.build_updates env repos state default_owner).1 ∨
  u ∈ (UpdateGitOrigins.build_updates env repos state default_owner).1 →
  (RepoUpdate.update_pushurl u && RepoUpdate.pushurl_conflict u = false) ∧
  (RepoUpdate.current_pushurl u = None →
     RepoUpdate.update_pushurl u = false ∧ RepoUpdate.pushurl_conflict u = false).
Proof.
  intros Hu.
  destruct (build_updates_elem env repos state default_owner u Hu)
    as (rp & o & w & r & _ & ->).
  unfold make_update; cbv zeta.
  destruct (state !! (w ++ "/" ++ r)) as [e|];
  destruct (run_git_optional env cmd_get_push_url rp) as [p|]; simpl; try done;
  (destruct (truthy p); [destruct (String.eqb p o)|]); simpl; split; done.
Qed.

Lemma build_updates_flags_exclusive_witness :
  example_update_same_pushurl ∈
    (UpdateGitOrigins.build_updates
       (one_repo_env "git@bitbucket.org:acme/widgets.git"
          (Some "git@bitbucket.org:acme/widgets.git"))
       ["/src/widgets"] ∅ "me").1 ∧
  (RepoUpdate.update_pushurl example_update_same_pushurl
     && RepoUpdate.pushurl_conflict example_update_same_pushurl = false).
Proof.
  assert (Hin : example_update_same_pushurl ∈
    (UpdateGitOrigins.build_updates
       (one_repo_env "git@bitbucket.org:acme/widgets.git"
          (Some "git@bitbucket.org:acme/widgets.git"))
       ["/src/widgets"] ∅ "me").1) by (vm_compute; apply list_elem_of_here).
  split; [exact Hin|].
  exact (proj1 (build_updates_flags_exclusive _ _ _ _ _ (or_intror Hin))).
Defined.

(** C7: for every update of either planner, its origin parses to
    [(workspace, repo)] and its key is ["workspace/repo"]; with a ledger
    record for that key, the record's non-empty [target_owner] and
    [target_name] are used (an empty one falls back to the default owner or
    to [repo]) and [from_state] is true; without one, the target is
    [(default_owner, repo)] and [from_state] is false; and the new origin
    is always ["git@github.com:<owner>/<name>.git"]. *)
Theorem build_updates_target_resolution env repos state default_owner (u : RepoUpdate.t) :
  u ∈ (OriginUpdater.build_updates env repos state default_owner).1 ∨
  u ∈ (UpdateGitOrigins.build_updates env repos state default_owner).1 →
  ∃ workspace repo,
    OriginUpdater.parse_bitbucket_origin (RepoUpdate.current_origin u) = Some (workspace, repo) ∧
    RepoUpdate.source_key u = workspace ++ "/" ++ repo ∧
    match state !! (workspace ++ "/" ++ repo) with
    | Some entry =>
        RepoUpdate.target_owner u =
          (if truthy (Entry.target_owner entry) then Entry.target_owner entry else default_owner) ∧
        RepoUpdate.target_name u =
          (if truthy (Entry.target_name entry) then Entry.target_name entry else repo) ∧
        RepoUpdate.from_state u = true
    | None =>
        RepoUpdate.target_owner u = default_owner ∧
        RepoUpdate.target_name u = repo ∧
        RepoUpdate.from_state u = false
    end ∧
    RepoUpdate.new_origin u =
      "git@github.com:" ++ RepoUpdate.target_owner u ++ "/" ++ RepoUpdate.target_name u ++ ".git".
Proof.
  intros Hu.
  destruct (build_updates_elem env repos state default_owner u Hu)
    as (rp & o & w & r & Hp & ->).
  exists w, r.
  unfold make_update; cbv zeta.
  destruct (state !! (w ++ "/" ++ r)) as [e|] eqn:Hl;
  destruct (run_git_optional env cmd_get_push_url rp) as [p|];
  try (destruct (truthy p); [destruct (String.eqb p o)|]);
  simpl; rewrite ?Hl; repeat split; assumption.
Qed.

Definition example_update_from_ledger : RepoUpdate.t :=
  make_update "/src/widgets" "https://bitbucket.org/acme/widgets.git" None
    "acme" "widgets" acme_ledger "acme".

Lemma build_updates_target_resolution_witness :
  example_update_from_ledger ∈
    (OriginUpdater.build_updates
       (one_repo_env "https://bitbucket.org/acme/widgets.git" None)
       ["/src/widgets"] acme_ledger "acme").1 ∧
  RepoUpdate.new_origin example_update_from_ledger = "git@github.com:acme-org/widgets-v2.git" ∧
  RepoUpdate.from_state example_update_from_ledger = true.
Proof.
  assert (Hin : example_update_from_ledger ∈
    (OriginUpdater.build_updates
       (one_repo_env "https://bitbucket.org/acme/widgets.git" None)
       ["/src/widgets"] acme_ledger "acme").1) by (vm_compute; apply list_elem_of_here).
  split; [exact Hin|].
  destruct (build_updates_target_resolution _ _ _ _ _ (or_introl Hin))
    as (w & r & Hp & Hk & Hm & Hn).
  vm_compute in Hp. injection Hp as <- <-.
  rewrite Hn. vm_compute. split; reflexivity.
Defined.

(* ------------------------------------------------------------------ *)
(** ** Applying the loaded ledger to fresh plans *)

(** C8: after [apply_existing_state], the plan at each position keeps its
    source; if the ledger has a record for its key, its status is the
    record's status, and its target is the record's target when the
    record's owner and name are both non-empty and is unchanged otherwise;
    a plan whose key is not in the ledger is unchanged. *)
Theorem apply_existing_state_merge (rd : read_result) (plans : list RepoPlan.t)
    (i : nat) (p : RepoPlan.t) :
  plans !! i = Some p →
  ∃ p', Orchestrator.apply_existing_state rd plans !! i = Some p' ∧
    RepoPlan.source p' = RepoPlan.source p ∧
    match Migrator.load_state rd !! Orchestrator.plan_key p with
    | Some entry =>
        RepoPlan.status p' = Entry.status entry ∧
        (truthy (Entry.target_owner entry) && truthy (Entry.target_name entry) = true →
           RepoPlan.target_owner p' = Entry.target_owner entry ∧
           RepoPlan.target_name p' = Entry.target_name entry) ∧
        (truthy (Entry.target_owner entry) && truthy (Entry.target_name entry) = false →
           RepoPlan.target_owner p' = RepoPlan.target_owner p ∧
           RepoPlan.target_name p' = RepoPlan.target_name p)
    | None => p' = p
    end.
Proof.
  intros Hi. unfold Orchestrator.apply_existing_state.
  destruct (size (Migrator.load_state rd) =? 0)%nat eqn:Hs.
  - apply Nat.eqb_eq, map_size_empty_inv in Hs. rewrite Hs, lookup_empty.
    exists p. auto.
  - rewrite list_lookup_fmap, Hi. simpl. unfold Orchestrator.apply_record.
    destruct (Migrator.load_state rd !! Orchestrator.plan_key p) as [e|].
    + destruct (truthy (Entry.target_owner e) && truthy (Entry.target_name e)) eqn:Ht;
        eexists; (split; [reflexivity|]); simpl; repeat split; auto; discriminate.
    + exists p. auto.
Qed.

(** The spec's scenario: a plan with the default target [(me, widgets)]
    and a ledger record for [acme/widgets] with target
    [(acme-org, widgets-v2)]. *)
Definition widgets_repo : BitbucketRepo.t :=
  BitbucketRepo.mk "acme" "widgets" "Widgets" "https://bitbucket.org/acme/widgets.git"
    "https://bitbucket.org/acme/widgets".

Definition widgets_ledger_file : read_result :=
  FileJson (JObj [("acme/widgets", JObj [("status", JStr "done");
                                         ("target_owner", JStr "acme-org");
                                         ("target_name", JStr "widgets-v2")])]).

Lemma apply_existing_state_merge_witness :
  [RepoPlan.mk widgets_repo "me" "widgets" "pending"] !! 0 =
    Some (RepoPlan.mk widgets_repo "me" "widgets" "pending") ∧
  Orchestrator.apply_existing_state widgets_ledger_file
    [RepoPlan.mk widgets_repo "me" "widgets" "pending"] !! 0 =
    Some (RepoPlan.mk widgets_repo "acme-org" "widgets-v2" "done").
Proof.
  split; [reflexivity|].
  destruct (apply_existing_state_merge widgets_ledger_file
              [RepoPlan.mk widgets_repo "me" "widgets" "pending"] 0 _ eq_refl)
    as (p' & Hp' & Hsrc & Hm).
  rewrite Hp'. vm_compute in Hm. destruct Hm as (Hst & Ht & _).
  destruct (Ht eq_refl) as [Ho Hn].
  destruct p' as [src o n st]; simpl in *; subst. reflexivity.
Defined.

(* ------------------------------------------------------------------ *)
(** ** The state loaders on malformed content *)

(** A loaded object that holds one non-object entry and one object entry. *)
Definition mixed_ledger_file : read_result :=
  FileJson (JObj [("acme/a", JNum 1); ("acme/b", JObj [])]).

(** C3 (as stated, refuted): a top-level object that is not a mapping of
    mappings is not turned into the empty mapping: its object-valued
    entries are kept. *)
Lemma load_state_keeps_object_entries :
  Migrator.load_state mixed_ledger_file = {[ "acme/b" := Entry.mk "pending" "" "" ]} ∧
  UpdateGitOrigins.load_state mixed_ledger_file = Ok {[ "acme/b" := Entry.mk "" "" "" ]} ∧
  Migrator.load_state mixed_ledger_file ≠ ∅.
Proof.
  split; [vm_compute; reflexivity|]. split; [vm_compute; reflexivity|].
  intros H. assert (Hl := f_equal (lookup "acme/b") H).
  vm_compute in Hl. discriminate.
Qed.

(** Which keys a loader keeps from a top-level object. *)
Lemma load_state_object_keys (dflt : string) (l : list (string * json)) (k : string) :
  is_Some (omap (fun value =>
                   match value with
                   | JObj v =>
                       Some (Entry.mk (py_str (obj_get v "status" (JStr dflt)))
                                      (py_str (obj_get v "target_owner" (JStr "")))
                                      (py_str (obj_get v "target_name" (JStr ""))))
                   | _ => None
                   end) (py_dict_of_pairs l) !! k) ↔
  ∃ v, py_dict_of_pairs l !! k = Some (JObj v).
Proof.
  rewrite lookup_omap.
  destruct (py_dict_of_pairs l !! k) as [[]|]; simpl;
    split; intros H; try (destruct H as [? H]); try discriminate; eauto.
Qed.

(** C3 (amended): both loaders return the empty mapping when the file is
    absent or its JSON top level is not an object; on a top-level object
    both keep exactly the keys whose value (after [json.load]'s
    last-duplicate-wins) is an object; the migrator's loader also returns
    the empty mapping when the file cannot be read or parsed. *)
Theorem load_state_malformed_handling :
  Migrator.load_state FileMissing = ∅ ∧
  UpdateGitOrigins.load_state FileMissing = Ok ∅ ∧
  Migrator.load_state FileUnreadable = ∅ ∧
  Migrator.load_state FileUnparseable = ∅ ∧
  (∀ j : json, (∀ l, j ≠ JObj l) →
     Migrator.load_state (FileJson j) = ∅ ∧ UpdateGitOrigins.load_state (FileJson j) = Ok ∅) ∧
  (∀ (l : list (string * json)) (k : string),
     is_Some (Migrator.load_state (FileJson (JObj l)) !! k) ↔
     ∃ v, py_dict_of_pairs l !! k = Some (JObj v)) ∧
  (∀ l : list (string * json), ∃ s : ledger,
     UpdateGitOrigins.load_state (FileJson (JObj l)) = Ok s ∧
     ∀ k, is_Some (s !! k) ↔ ∃ v, py_dict_of_pairs l !! k = Some (JObj v)).
Proof.
  split; [done|]. split; [done|]. split; [done|]. split; [done|].
  split; [|split].
  - intros [] Hj; simpl; try done. by destruct (Hj l).
  - intros l k. apply (load_state_object_keys "pending").
  - intros l. eexists; split; [reflexivity|]. intros k. apply (load_state_object_keys "").
Qed.

(* ------------------------------------------------------------------ *)
(** ** The ledger written by [save_state] *)

Module OrchestratorFacts.
Import Orchestrator.

Lemma save_fold_lookup (plans : list RepoPlan.t) (m : ledger) (k : string) (e : Entry.t) :
  fold_left (fun data plan => <[plan_key plan := plan_record plan]> data) plans m !! k = Some e →
  m !! k = Some e ∨ ∃ q, q ∈ plans ∧ plan_key q = k ∧ plan_record q = e.
Proof.
  revert m. induction plans as [|q qs IH]; simpl; intros m H; [auto|].
  destruct (IH _ H) as [Hm|(q' & Hin & Hk & He)].
  - apply lookup_insert_Some in Hm as [[Hk He]|[_ Hm]]; [|auto].
    right. exists q. split; [apply elem_of_cons; auto|auto].
  - right. exists q'. split; [apply elem_of_cons; auto|auto].
Qed.

Lemma save_fold_is_Some (plans : list RepoPlan.t) (m : ledger) (k : string) :
  is_Some (fold_left (fun data plan => <[plan_key plan := plan_record plan]> data) plans m !! k) ↔
  is_Some (m !! k) ∨ ∃ q, q ∈ plans ∧ plan_key q = k.
Proof.
  revert m. induction plans as [|q qs IH]; simpl; intros m.
  - split; [auto|]. intros [H|(q & Hq & _)]; [done|by apply not_elem_of_nil in Hq].
  - rewrite IH, lookup_insert_is_Some'. split.
    + intros [[Hk|H]|(q' & Hq' & Hk)].
      * right. exists q. split; [apply elem_of_cons|]; auto.
      * auto.
      * right. exists q'. split; [apply elem_of_cons|]; auto.
    + intros [H|(q' & Hq' & Hk)]; [auto|].
      apply elem_of_cons in Hq' as [Hq|Hq']; [subst; auto|].
      right. exists q'. auto.
Qed.

(** The keys of a saved ledger are the keys of the saved plans. *)
Lemma save_state_is_Some (plans : list RepoPlan.t) (k : string) :
  is_Some (save_state plans !! k) ↔ ∃ q, q ∈ plans ∧ plan_key q = k.
Proof.
  unfold save_state. rewrite save_fold_is_Some, lookup_empty. split.
  - intros [H|H]; [by destruct H|exact H].
  - auto.
Qed.

(** A saved record is the record of a saved plan with that key. *)
Lemma save_state_lookup (plans : list RepoPlan.t) (k : string) (e : Entry.t) :
  save_state plans !! k = Some e → ∃ q, q ∈ plans ∧ plan_key q = k ∧ plan_record q = e.
Proof.
  unfold save_state. intros H.
  destruct (save_fold_lookup _ _ _ _ H) as [H'|H']; [by rewrite lookup_empty in H'|exact H'].
Qed.

(** Keys depend only on the sources of the plans. *)
Lemma save_state_is_Some_sources (ps qs : list RepoPlan.t) (k : string) :
  RepoPlan.source <$> ps = RepoPlan.source <$> qs →
  is_Some (save_state ps !! k) ↔ is_Some (save_state qs !! k).
Proof.
  intros Hs. rewrite !save_state_is_Some. unfold plan_key.
  split; intros (q & Hq & Hk); apply list_elem_of_lookup_1 in Hq as [j Hj].
  - assert (Hj' : (RepoPlan.source <$> qs) !! j = Some (RepoPlan.source q))
      by (rewrite <- Hs, list_lookup_fmap, Hj; reflexivity).
    rewrite list_lookup_fmap in Hj'.
    destruct (qs !! j) as [q'|] eqn:Hq'; inversion Hj'.
    exists q'. split; [by eapply list_elem_of_lookup_2|]. congruence.
  - assert (Hj' : (RepoPlan.source <$> ps) !! j = Some (RepoPlan.source q))
      by (rewrite Hs, list_lookup_fmap, Hj; reflexivity).
    rewrite list_lookup_fmap in Hj'.
    destruct (ps !! j) as [q'|] eqn:Hq'; inversion Hj'.
    exists q'. split; [by eapply list_elem_of_lookup_2|]. congruence.
Qed.

(** Changing a plan's status keeps the sources. *)
Lemma sources_with_status (plans : list RepoPlan.t) (i : nat) (p : RepoPlan.t) (s : string) :
  plans !! i = Some p →
  RepoPlan.source <$> <[i := RepoPlan.with_status p s]> plans = RepoPlan.source <$> plans.
Proof.
  intros Hi. rewrite list_fmap_insert. simpl.
  apply list_insert_id. rewrite list_lookup_fmap, Hi. reflexivity.
Qed.

End OrchestratorFacts.

(* ------------------------------------------------------------------ *)
(** ** The shape of one loop iteration *)

Module LoopFacts.
Import Orchestrator OrchestratorFacts.

Ltac split_elem H :=
  repeat (first [ apply elem_of_cons in H as [H|H]
                | apply elem_of_app in H as [H|H] ]);
  try (by apply not_elem_of_nil in H); subst; simpl.

(** The [try:] block only changes the status of plan [i], saves the plans
    with such a change, and otherwise calls the outside world for [i]. *)
Lemma try_block_shape (E : env) (i : nat) (p : RepoPlan.t) (plans : list RepoPlan.t) :
  (∀ ev, ev ∈ (try_block E i p plans).2 →
     match ev with
     | ESave m => ∃ s, m = save_state (<[i := RepoPlan.with_status p s]> plans)
     | _ => event_index ev = Some i
     end) ∧
  (∀ plans', (try_block E i p plans).1 = Ok plans' →
     ∃ s, plans' = <[i := RepoPlan.with_status p s]> plans).
Proof.
  unfold try_block; cbv zeta.
  repeat case_match; simpl; (split; [intros ev Hev | intros plans' Hp]);
    try discriminate; try (injection Hp as <-; eauto);
    split_elem Hev; eauto.
Qed.

(** One iteration either leaves everything unchanged (no plan at [i], or
    a plan already ["done"]), or changes only the status of plan [i], and
    its effects are saves of such plans and calls for [i]. *)
Lemma migrate_one_shape (E : env) (i : nat) (plans : list RepoPlan.t) :
  match migrate_one E i plans with
  | (plans', evs, r) =>
      (plans' = plans ∧ evs = [] ∧ r = None ∧
         ∀ p, plans !! i = Some p → RepoPlan.status p = "done") ∨
      (∃ p s, plans !! i = Some p ∧ RepoPlan.status p ≠ "done" ∧
         plans' = <[i := RepoPlan.with_status p s]> plans ∧
         ∀ ev, ev ∈ evs →
           match ev with
           | ESave m => ∃ s', m = save_state (<[i := RepoPlan.with_status p s']> plans)
           | _ => event_index ev = Some i
           end)
  end.
Proof.
  unfold migrate_one.
  destruct (plans !! i) as [p|] eqn:Hi; [|left; repeat split; intros; discriminate].
  destruct (String.eqb (RepoPlan.status p) "done") eqn:Hd.
  { left. repeat split. intros p' Hp'. injection Hp' as <-.
    by apply String.eqb_eq. }
  apply String.eqb_neq in Hd.
  destruct (try_block_shape E i p (<[i := RepoPlan.with_status p "in_progress"]> plans))
    as [Hev Hok].
  destruct (try_block E i p (<[i := RepoPlan.with_status p "in_progress"]> plans))
    as [[plans2|e] evs]; simpl in *.
  - right. destruct (Hok plans2 eq_refl) as [s ->].
    exists p, s. rewrite list_insert_insert_eq. repeat split; auto.
    intros ev Hin. split_elem Hin; [eauto|].
    specialize (Hev ev Hin). destruct ev; auto.
    destruct Hev as [s' ->]. rewrite list_insert_insert_eq. eauto.
  - destruct (is_Exception e); simpl; right.
    + exists p, "pending". rewrite list_insert_insert_eq. repeat split; auto.
      intros ev Hin. split_elem Hin; [eauto| |eauto].
      specialize (Hev ev Hin). destruct ev; auto.
      destruct Hev as [s' ->]. rewrite list_insert_insert_eq. eauto.
    + exists p, "in_progress". repeat split; auto.
      intros ev Hin. split_elem Hin; [eauto|].
      specialize (Hev ev Hin). destruct ev; auto.
      destruct Hev as [s' ->]. rewrite list_insert_insert_eq. eauto.
Qed.

(** An invariant of the plans that every iteration keeps, and a property
    of every effect of every iteration, hold for the whole loop. *)
Lemma migrate_loop_invariant (Inv : list RepoPlan.t → Prop) (Q : event → Prop) (E : env) :
  (∀ i ps, Inv ps →
     match migrate_one E i ps with
     | (ps', evs, _) => Inv ps' ∧ ∀ ev, ev ∈ evs → Q ev
     end) →
  ∀ idxs ps, Inv ps →
  match migrate_loop E idxs ps with
  | (ps', evs, _) => Inv ps' ∧ ∀ ev, ev ∈ evs → Q ev
  end.
Proof.
  intros Hstep idxs. induction idxs as [|i rest IH]; simpl; intros ps Hinv.
  - split; [done|]. intros ev Hev. by apply not_elem_of_nil in Hev.
  - specialize (Hstep i ps Hinv).
    destruct (migrate_one E i ps) as [[ps1 evs1] [e|]].
    + exact Hstep.
    + destruct Hstep as [Hinv1 HQ1]. specialize (IH ps1 Hinv1).
      destruct (migrate_loop E rest ps1) as [[ps2 evs2] r2].
      destruct IH as [Hinv2 HQ2]. split; [done|].
      intros ev Hev. apply elem_of_app in Hev as [Hev|Hev]; auto.
Qed.

End LoopFacts.

(* ------------------------------------------------------------------ *)
(** ** Ledger keys across a run (C2) *)

Module LedgerKeys.
Import Orchestrator OrchestratorFacts LoopFacts.

(** A run of the loop on one selected repository, [acme/widgets], whose
    remote creation fails. *)
Definition env_create_fails : env := {|
  gh_username := "me";
  create_github_repo := fun _ _ _ _ => Raise (ExcException "HTTP 500");
  fetch_is_empty := fun _ _ _ => Ok true;
  prompt_push_anyway := fun _ => Ok false;
  mirror_repo := fun _ _ _ _ => Ok tt |}.

Definition widgets_plan : RepoPlan.t := RepoPlan.mk widgets_repo "me" "widgets" "pending".

(** A ledger file with a record for [acme/old], a repository not selected. *)
Definition ledger_with_old : read_result :=
  FileJson (JObj [("acme/old", JObj [("status", JStr "done");
                                     ("target_owner", JStr "acme");
                                     ("target_name", JStr "old")])]).

(** C2 (as stated, refuted): the record of [acme/old], present in the
    ledger before the run, is gone from the first ledger saved by a run
    that selected only [acme/widgets]. *)
Lemma unselected_record_dropped_by_save :
  is_Some (Migrator.load_state ledger_with_old !! "acme/old") ∧
  ∃ m, ESave m ∈ (main_loop env_create_fails
                    (apply_existing_state ledger_with_old [widgets_plan])).1.2 ∧
       m !! "acme/old" = None.
Proof.
  split; [vm_compute; eauto|].
  eexists. split; [vm_compute; apply list_elem_of_here|]. vm_compute. reflexivity.
Qed.

(** C2 (amended): every ledger the loop saves holds exactly the keys of
    the run's plans: a key of the earlier ledger stays present across all
    saves when it belongs to a selected repository, and is absent from
    every save when it does not. *)
Theorem saves_hold_exactly_plan_keys (E : env) (plans : list RepoPlan.t) (m : ledger) :
  ESave m ∈ (main_loop E plans).1.2 →
  ∀ k, is_Some (m !! k) ↔ ∃ q, q ∈ plans ∧ plan_key q = k.
Proof.
  unfold main_loop. intros Hm.
  pose proof (migrate_loop_invariant
                (fun ps => RepoPlan.source <$> ps = RepoPlan.source <$> plans)
                (fun ev => match ev with
                           | ESave m => ∀ k, is_Some (m !! k) ↔ ∃ q, q ∈ plans ∧ plan_key q = k
                           | _ => True
                           end) E) as H.
  assert (Hstep : ∀ i ps, RepoPlan.source <$> ps = RepoPlan.source <$> plans →
    match migrate_one E i ps with
    | (ps', evs, _) =>
        RepoPlan.source <$> ps' = RepoPlan.source <$> plans ∧
        ∀ ev, ev ∈ evs →
          match ev with
          | ESave m => ∀ k, is_Some (m !! k) ↔ ∃ q, q ∈ plans ∧ plan_key q = k
          | _ => True
          end
    end).
  { intros i ps Hps. pose proof (migrate_one_shape E i ps) as Hs.
    destruct (migrate_one E i ps) as [[ps' evs] r].
    destruct Hs as [(-> & -> & _ & _)|(p & s & Hi & _ & -> & Hev)].
    - split; [done|]. intros ev Hev. by apply not_elem_of_nil in Hev.
    - split; [by rewrite sources_with_status|].
      intros ev Hin. specialize (Hev ev Hin). destruct ev; auto.
      destruct Hev as [s' ->]. intros k. rewrite <- save_state_is_Some.
      apply save_state_is_Some_sources. by rewrite sources_with_status. }
  specialize (H Hstep (seq 0 (length plans)) plans eq_refl).
  destruct (migrate_loop E (seq 0 (length plans)) plans) as [[ps evs] r].
  destruct H as [_ HQ]. exact (HQ _ Hm).
Qed.

Lemma saves_hold_exactly_plan_keys_witness :
  ESave (save_state [RepoPlan.with_status widgets_plan "in_progress"])
    ∈ (main_loop env_create_fails [widgets_plan]).1.2 ∧
  is_Some (save_state [RepoPlan.with_status widgets_plan "in_progress"] !! "acme/widgets").
Proof.
  assert (Hin : ESave (save_state [RepoPlan.with_status widgets_plan "in_progress"])
                  ∈ (main_loop env_create_fails [widgets_plan]).1.2)
    by (vm_compute; apply list_elem_of_here).
  split; [exact Hin|].
  apply (saves_hold_exactly_plan_keys _ _ _ Hin "acme/widgets").
  exists widgets_plan. split; [apply list_elem_of_here|reflexivity].
Defined.

End LedgerKeys.

(* ------------------------------------------------------------------ *)
(** ** Plans already done are skipped (C4) *)

Module SkipDone.
Import Orchestrator OrchestratorFacts LoopFacts.

Lemma apply_record_key (state : ledger) (q : RepoPlan.t) :
  plan_key (apply_record state q) = plan_key q.
Proof.
  unfold apply_record. destruct (state !! plan_key q); [|reflexivity].
  destruct (_ && _); reflexivity.
Qed.

Lemma apply_record_status (state : ledger) (q : RepoPlan.t) :
  RepoPlan.status (apply_record state q) =
  match state !! plan_key q with
  | Some e => Entry.status e
  | None => RepoPlan.status q
  end.
Proof.
  unfold apply_record. destruct (state !! plan_key q); [|reflexivity].
  destruct (_ && _); reflexivity.
Qed.

(** When the plans start out pending, a plan that [apply_existing_state]
    marks done got that status from the ledger record of its key, so every
    plan with the same key is done as well. *)
Lemma apply_existing_state_done_group (rd : read_result) (plans0 : list RepoPlan.t)
    (i : nat) (p : RepoPlan.t) :
  Forall (fun q => RepoPlan.status q = "pending") plans0 →
  apply_existing_state rd plans0 !! i = Some p →
  RepoPlan.status p = "done" →
  ∀ j q, apply_existing_state rd plans0 !! j = Some q →
    plan_key q = plan_key p → RepoPlan.status q = "done".
Proof.
  intros Hpend Hi Hdone j q Hj Hk. unfold apply_existing_state in *.
  destruct (size (Migrator.load_state rd) =? 0)%nat.
  { rewrite (Forall_lookup_1 _ _ _ _ Hpend Hi) in Hdone. discriminate. }
  rewrite list_lookup_fmap in Hi, Hj.
  destruct (plans0 !! i) as [p0|] eqn:Hp0; inversion Hi; subst p.
  destruct (plans0 !! j) as [q0|] eqn:Hq0; inversion Hj; subst q.
  rewrite !apply_record_key in Hk.
  rewrite apply_record_status in Hdone |- *. rewrite Hk.
  destruct (Migrator.load_state rd !! plan_key p0); [exact Hdone|].
  rewrite (Forall_lookup_1 _ _ _ _ Hpend Hp0) in Hdone. discriminate.
Qed.

Section Loop.
Variable (i : nat) (p : RepoPlan.t).

(** Plan [p] sits at [i], and every plan with its key is done. *)
Definition done_inv (ps : list RepoPlan.t) : Prop :=
  ps !! i = Some p ∧
  ∀ j q, ps !! j = Some q → plan_key q = plan_key p → RepoPlan.status q = "done".

Lemma done_inv_insert (ps : list RepoPlan.t) (j : nat) (q : RepoPlan.t) (s : string) :
  done_inv ps → ps !! j = Some q → RepoPlan.status q ≠ "done" →
  j ≠ i ∧ done_inv (<[j := RepoPlan.with_status q s]> ps).
Proof.
  intros [Hi Hgroup] Hj Hq.
  assert (Hji : j ≠ i).
  { intros ->. rewrite Hi in Hj. injection Hj as <-.
    apply Hq, (Hgroup i p Hi eq_refl). }
  split; [exact Hji|split].
  - rewrite list_lookup_insert_ne; auto.
  - intros j' q' Hj' Hk. destruct (decide (j = j')) as [<-|Hne].
    + rewrite list_lookup_insert_eq in Hj' by (eapply lookup_lt_Some; eauto).
      injection Hj' as <-. exfalso. apply Hq, (Hgroup j q Hj Hk).
    + rewrite list_lookup_insert_ne in Hj' by auto. eauto.
Qed.

Lemma done_inv_save (ps : list RepoPlan.t) :
  done_inv ps → ∃ e, save_state ps !! plan_key p = Some e ∧ Entry.status e = "done".
Proof.
  intros [Hi Hgroup].
  destruct (proj2 (save_state_is_Some ps (plan_key p))) as [e He].
  { exists p. split; [eapply list_elem_of_lookup_2; eauto|reflexivity]. }
  exists e. split; [exact He|].
  destruct (save_state_lookup _ _ _ He) as (q & Hq & Hk & <-).
  apply list_elem_of_lookup_1 in Hq as [j Hj]. exact (Hgroup j q Hj Hk).
Qed.

End Loop.

(** C4: when the loop starts from fresh (pending) plans merged with the
    ledger, a plan whose status is then "done" is skipped: no create,
    info, prompt or mirror call is made for its position, it is left as
    it is, and every ledger saved during the run has a record with status
    "done" for its key. *)
Theorem done_plans_are_skipped (E : env) (rd : read_result) (plans0 : list RepoPlan.t)
    (i : nat) (p : RepoPlan.t) :
  Forall (fun q => RepoPlan.status q = "pending") plans0 →
  apply_existing_state rd plans0 !! i = Some p →
  RepoPlan.status p = "done" →
  match main_loop E (apply_existing_state rd plans0) with
  | (final, evs, _) =>
      final !! i = Some p ∧
      (∀ ev, ev ∈ evs → event_index ev ≠ Some i) ∧
      (∀ m, ESave m ∈ evs → ∃ e, m !! plan_key p = Some e ∧ Entry.status e = "done")
  end.
Proof.
  intros Hpend Hi Hdone.
  pose proof (migrate_loop_invariant (done_inv i p)
                (fun ev => event_index ev ≠ Some i ∧
                           match ev with
                           | ESave m => ∃ e, m !! plan_key p = Some e ∧ Entry.status e = "done"
                           | _ => True
                           end) E) as H.
  assert (Hstep : ∀ j ps, done_inv i p ps →
    match migrate_one E j ps with
    | (ps', evs, _) =>
        done_inv i p ps' ∧
        ∀ ev, ev ∈ evs →
          event_index ev ≠ Some i ∧
          match ev with
          | ESave m => ∃ e, m !! plan_key p = Some e ∧ Entry.status e = "done"
          | _ => True
          end
    end).
  { intros j ps Hinv. pose proof (migrate_one_shape E j ps) as Hs.
    destruct (migrate_one E j ps) as [[ps' evs] r].
    destruct Hs as [(-> & -> & _ & _)|(q & s & Hj & Hq & -> & Hev)].
    - split; [done|]. intros ev Hev. by apply not_elem_of_nil in Hev.
    - destruct (done_inv_insert i p ps j q s Hinv Hj Hq) as [Hji Hinv'].
      split; [exact Hinv'|]. intros ev Hin. specialize (Hev ev Hin).
      destruct ev; simpl in *.
      + destruct Hev as [s' ->]. split; [discriminate|].
        apply (done_inv_save i p).
        exact (proj2 (done_inv_insert i p ps j q s' Hinv Hj Hq)).
      + rewrite Hev. split; [congruence|exact I].
      + rewrite Hev. split; [congruence|exact I].
      + rewrite Hev. split; [congruence|exact I].
      + rewrite Hev. split; [congruence|exact I]. }
  assert (Hinv0 : done_inv i p (apply_existing_state rd plans0)).
  { split; [exact Hi|]. eapply apply_existing_state_done_group; eauto. }
  unfold main_loop.
  specialize (H Hstep (seq 0 (length (apply_existing_state rd plans0))) _ Hinv0).
  destruct (migrate_loop E _ _) as [[final evs] r].
  destruct H as [[Hfinal _] HQ]. split; [exact Hfinal|split].
  - intros ev Hev. exact (proj1 (HQ ev Hev)).
  - intros m Hm. exact (proj2 (HQ _ Hm)).
Qed.

(** A two-repository run from a ledger in which [acme/widgets] is done;
    the other repository, [acme/gadgets], fails to be created. *)
Definition gadgets_plan : RepoPlan.t :=
  RepoPlan.mk (BitbucketRepo.mk "acme" "gadgets" "Gadgets"
                 "https://bitbucket.org/acme/gadgets.git"
                 "https://bitbucket.org/acme/gadgets")
              "me" "gadgets" "pending".

Definition widgets_done_plan : RepoPlan.t :=
  RepoPlan.mk widgets_repo "acme-org" "widgets-v2" "done".

Lemma done_plans_are_skipped_witness :
  Forall (fun q => RepoPlan.status q = "pending") [LedgerKeys.widgets_plan; gadgets_plan] ∧
  apply_existing_state widgets_ledger_file [LedgerKeys.widgets_plan; gadgets_plan] !! 0
    = Some widgets_done_plan ∧
  RepoPlan.status widgets_done_plan = "done" ∧
  (main_loop LedgerKeys.env_create_fails
     (apply_existing_state widgets_ledger_file [LedgerKeys.widgets_plan; gadgets_plan])).1.1 !! 0
    = Some widgets_done_plan.
Proof.
  assert (Hpend : Forall (fun q => RepoPlan.status q = "pending")
                    [LedgerKeys.widgets_plan; gadgets_plan])
    by (repeat constructor).
  assert (Hi : apply_existing_state widgets_ledger_file [LedgerKeys.widgets_plan; gadgets_plan] !! 0
                 = Some widgets_done_plan) by (vm_compute; reflexivity).
  assert (Hd : RepoPlan.status widgets_done_plan = "done") by reflexivity.
  split; [exact Hpend|split; [exact Hi|split; [exact Hd|]]].
  pose proof (done_plans_are_skipped LedgerKeys.env_create_fails widgets_ledger_file
                [LedgerKeys.widgets_plan; gadgets_plan] 0 widgets_done_plan Hpend Hi Hd) as H.
  destruct (main_loop _ _) as [[final evs] r]. exact (proj1 H).
Defined.

End SkipDone.

(* ------------------------------------------------------------------ *)
(** ** Per-repository failures (C5) *)

Module Failures.
Import Orchestrator OrchestratorFacts LoopFacts.

(** When no other plan has the same key, the saved record for a plan's
    key is that plan's record. *)
Lemma save_state_unique_key (ps : list RepoPlan.t) (i : nat) (q : RepoPlan.t) :
  ps !! i = Some q →
  (∀ j q', ps !! j = Some q' → plan_key q' = plan_key q → j = i) →
  save_state ps !! plan_key q = Some (plan_record q).
Proof.
  intros Hi Huniq.
  destruct (proj2 (save_state_is_Some ps (plan_key q))) as [e He].
  { exists q. split; [eapply list_elem_of_lookup_2; eauto|reflexivity]. }
  rewrite He. destruct (save_state_lookup _ _ _ He) as (q' & Hq' & Hk & <-).
  apply list_elem_of_lookup_1 in Hq' as [j Hj].
  rewrite (Huniq j q' Hj Hk), Hi in Hj. by injection Hj as ->.
Qed.

(** A run in which [create_github_repo] succeeds and the mirror of the
    first repository is interrupted from the keyboard (Ctrl-C). *)
Definition env_interrupted : env := {|
  gh_username := "me";
  create_github_repo := fun _ _ _ _ => Ok (true, "created");
  fetch_is_empty := fun _ _ _ => Ok true;
  prompt_push_anyway := fun _ => Ok false;
  mirror_repo := fun i _ _ _ => if (i =? 0)%nat then Raise ExcKeyboardInterrupt else Ok tt |}.

(** C5 (as stated, refuted): a [KeyboardInterrupt] raised while mirroring
    the first repository is not caught by [except Exception]: the loop
    stops there, the second repository is never processed, and the last
    ledger saved has the first repository as "in_progress", not "pending". *)
Lemma interrupt_aborts_batch :
  main_loop env_interrupted [LedgerKeys.widgets_plan; SkipDone.gadgets_plan] =
    ([RepoPlan.with_status LedgerKeys.widgets_plan "in_progress"; SkipDone.gadgets_plan],
     [ESave (save_state [RepoPlan.with_status LedgerKeys.widgets_plan "in_progress";
                         SkipDone.gadgets_plan]);
      ECreate 0 "me" "widgets"; EMirror 0],
     Some ExcKeyboardInterrupt) ∧
  save_state [RepoPlan.with_status LedgerKeys.widgets_plan "in_progress"; SkipDone.gadgets_plan]
    !! "acme/widgets" = Some (Entry.mk "in_progress" "me" "widgets").
Proof. split; vm_compute; reflexivity. Qed.

(** The [try:] block saves the plans only on its way out without an
    exception. *)
Lemma try_block_raise_no_save (E : env) (i : nat) (p : RepoPlan.t) (ps : list RepoPlan.t)
    (e : exn) (evs : list event) :
  try_block E i p ps = (Raise e, evs) → ∀ d, ESave d ∉ evs.
Proof.
  unfold try_block. cbv zeta. intros H d.
  destruct (create_github_repo E _ _ _ _) as [[created status]|e0].
  2:{ injection H as _ <-. intros Hd. repeat (apply elem_of_cons in Hd as [Hd|Hd]; [discriminate|]).
      by apply not_elem_of_nil in Hd. }
  destruct (String.eqb status "exists");
    [destruct (fetch_is_empty E _ _ _) as [is_empty|e0];
     [destruct is_empty; [|destruct (prompt_push_anyway E i) as [[|]|e0]]|]|];
    try (destruct (mirror_repo E _ _ _ _) as [[]|e0]);
    try discriminate H; injection H as _ <-; intros Hd;
    repeat (first [ apply elem_of_app in Hd as [Hd|Hd] | apply elem_of_cons in Hd as [Hd|Hd] ]);
    try discriminate; by apply not_elem_of_nil in Hd.
Qed.

(** C5 (amended): for a plan that is not done, at a position [i] where
    the [try:] block (creation, information lookup, prompt, mirror) raises
    after its own effects [evs]:
    - if the exception is of class [Exception], the iteration sets the plan
      to "pending", saves the plans with that status (after the
      "in_progress" save and the block's effects), lets no exception
      escape, and the loop goes on with the next position; when no other
      plan has the same key, that last save records the plan's key as
      "pending" with its target;
    - otherwise ([KeyboardInterrupt]), the exception escapes the loop,
      which ends there without touching the later positions; the block's
      effects hold no save, so the last save is the "in_progress" one,
      which records the plan's key as "in_progress" with its target when
      no other plan has the same key. *)
Theorem exception_demotes_to_pending (E : env) (i : nat) (rest : list nat)
    (plans : list RepoPlan.t) (p : RepoPlan.t) (e : exn) (evs : list event) :
  plans !! i = Some p →
  RepoPlan.status p ≠ "done" →
  try_block E i p (<[i := RepoPlan.with_status p "in_progress"]> plans) = (Raise e, evs) →
  let plans1 := <[i := RepoPlan.with_status p "in_progress"]> plans in
  let plans2 := <[i := RepoPlan.with_status p "pending"]> plans in
  let unique_key := ∀ j q, plans !! j = Some q → plan_key q = plan_key p → j = i in
  (is_Exception e = true →
   let evs1 := ESave (save_state plans1) :: (evs ++ [ESave (save_state plans2)])%list in
   migrate_one E i plans = (plans2, evs1, None) ∧
   migrate_loop E (i :: rest) plans =
     (let '(ps, evs', r) := migrate_loop E rest plans2 in (ps, (evs1 ++ evs')%list, r)) ∧
   (unique_key →
    save_state plans2 !! plan_key p =
      Some (Entry.mk "pending" (RepoPlan.target_owner p) (RepoPlan.target_name p)))) ∧
  (is_Exception e = false →
   migrate_one E i plans = (plans1, ESave (save_state plans1) :: evs, Some e) ∧
   migrate_loop E (i :: rest) plans = (plans1, ESave (save_state plans1) :: evs, Some e) ∧
   (∀ d, ESave d ∉ evs) ∧
   (unique_key →
    save_state plans1 !! plan_key p =
      Some (Entry.mk "in_progress" (RepoPlan.target_owner p) (RepoPlan.target_name p)))).
Proof.
  intros Hi Hnd Htry plans1 plans2 unique_key.
  assert (Hsave : ∀ s, unique_key →
            save_state (<[i := RepoPlan.with_status p s]> plans) !! plan_key p =
              Some (Entry.mk s (RepoPlan.target_owner p) (RepoPlan.target_name p))).
  { intros s Huniq.
    apply (save_state_unique_key _ i (RepoPlan.with_status p s)).
    + apply list_lookup_insert_eq. eapply lookup_lt_Some; eauto.
    + intros j q Hj Hk.
      destruct (decide (i = j)) as [->|Hne]; [reflexivity|].
      rewrite list_lookup_insert_ne in Hj by auto. exact (Huniq j q Hj Hk). }
  split.
  - intros Hexc evs1.
    assert (Hone : migrate_one E i plans = (plans2, evs1, None)).
    { unfold migrate_one. rewrite Hi.
      apply String.eqb_neq in Hnd. rewrite Hnd.
      cbv zeta. rewrite Htry, Hexc.
      unfold plans2, plans1. rewrite list_insert_insert_eq. reflexivity. }
    split; [exact Hone|split].
    + simpl. rewrite Hone. reflexivity.
    + apply Hsave.
  - intros Hexc.
    assert (Hone : migrate_one E i plans = (plans1, ESave (save_state plans1) :: evs, Some e)).
    { unfold migrate_one. rewrite Hi.
      apply String.eqb_neq in Hnd. rewrite Hnd.
      cbv zeta. rewrite Htry, Hexc. reflexivity. }
    split; [exact Hone|split; [|split]].
    + simpl. rewrite Hone. reflexivity.
    + exact (try_block_raise_no_save _ _ _ _ _ _ Htry).
    + apply Hsave.
Qed.

Lemma exception_demotes_to_pending_witness :
  migrate_loop env_interrupted [0%nat; 1%nat] [LedgerKeys.widgets_plan; SkipDone.gadgets_plan] =
    ([RepoPlan.with_status LedgerKeys.widgets_plan "in_progress"; SkipDone.gadgets_plan],
     [ESave (save_state [RepoPlan.with_status LedgerKeys.widgets_plan "in_progress";
                         SkipDone.gadgets_plan]);
      ECreate 0 "me" "widgets"; EMirror 0],
     Some ExcKeyboardInterrupt).
Proof.
  assert (Hi : [LedgerKeys.widgets_plan; SkipDone.gadgets_plan] !! 0 = Some LedgerKeys.widgets_plan)
    by reflexivity.
  assert (Hnd : RepoPlan.status LedgerKeys.widgets_plan ≠ "done") by discriminate.
  assert (Htry : try_block env_interrupted 0 LedgerKeys.widgets_plan
                   (<[0 := RepoPlan.with_status LedgerKeys.widgets_plan "in_progress"]>
                      [LedgerKeys.widgets_plan; SkipDone.gadgets_plan])
                 = (Raise ExcKeyboardInterrupt, [ECreate 0 "me" "widgets"; EMirror 0]))
    by reflexivity.
  destruct (exception_demotes_to_pending env_interrupted 0 [1%nat]
              [LedgerKeys.widgets_plan; SkipDone.gadgets_plan] LedgerKeys.widgets_plan
              ExcKeyboardInterrupt [ECreate 0 "me" "widgets"; EMirror 0] Hi Hnd Htry)
    as [_ H].
  destruct (H eq_refl) as (_ & Hloop & _).
  exact Hloop.
Defined.

End Failures.

(* ------------------------------------------------------------------ *)
(** ** The origin parser (C6) *)

Module OriginShapes.

(** The number of occurrences of [c] in [s]. *)
Fixpoint count_char (c : ascii) (s : string) : nat :=
  match s with
  | "" => 0
  | String d s' => (if Ascii.eqb d c then 1 else 0) + count_char c s'
  end.

(** [s.endswith(suf)] *)
Fixpoint ends_with (suf s : string) : bool :=
  String.eqb s suf || match s with "" => false | String _ s' => ends_with suf s' end.

(** A non-empty run of characters other than [c] ([[^c]+]). *)
Definition valid_segment (c : ascii) (s : string) : bool :=
  negb (String.eqb s "") && (count_char c s =? 0)%nat.

Definition git_suffix (git : bool) : string := if git then ".git" else "".

(** [https://[credentials@]bitbucket.org/<workspace>/<slug>[.git]] *)
Definition https_origin (cred : option string) (workspace slug : string) (git : bool) : string :=
  let tail := "bitbucket.org/" ++ workspace ++ "/" ++ slug ++ git_suffix git in
  "https://" ++ match cred with Some c => c ++ "@" ++ tail | None => tail end.

(** [git@bitbucket.org:<workspace>/<slug>[.git]] *)
Definition ssh_origin (workspace slug : string) (git : bool) : string :=
  "git@bitbucket.org:" ++ workspace ++ "/" ++ slug ++ git_suffix git.

Definition cred_ok (cred : option string) : bool :=
  match cred with Some c => valid_segment "@" c | None => true end.

(** Without the [.git] suffix, a slug that itself ends in [.git] (other
    than [.git] itself) reads as a shorter slug with the suffix. *)
Definition slug_unambiguous (slug : string) (git : bool) : bool :=
  git || (String.eqb slug ".git" || negb (ends_with ".git" slug)).

Definition nl : string := String newline "".

Lemma str_app_cons (x : ascii) (a b : string) : (String x a ++ b)%string = String x (a ++ b).
Proof. reflexivity. Qed.

Lemma str_app_assoc (a b c : string) : ((a ++ b) ++ c)%string = (a ++ b ++ c)%string.
Proof. induction a as [|x a IH]; [reflexivity|exact (f_equal (String x) IH)]. Qed.

Lemma str_app_nil_r (a : string) : (a ++ "")%string = a.
Proof. induction a as [|x a IH]; [reflexivity|exact (f_equal (String x) IH)]. Qed.

Lemma str_length_app (a b : string) : String.length (a ++ b) = (String.length a + String.length b)%nat.
Proof. induction a as [|x a IH]; [reflexivity|exact (f_equal S IH)]. Qed.

Lemma count_char_app (c : ascii) (a b : string) :
  count_char c (a ++ b) = (count_char c a + count_char c b)%nat.
Proof. induction a as [|x a IH]; [reflexivity|]. rewrite str_app_cons. simpl. rewrite IH. lia. Qed.

Lemma ends_with_app (suf x : string) : ends_with suf (x ++ suf) = true.
Proof.
  induction x as [|c x IH].
  - change ("" ++ suf)%string with suf.
    destruct suf; [reflexivity|]. cbn [ends_with]. by rewrite String.eqb_refl.
  - rewrite str_app_cons. simpl. rewrite IH. apply orb_true_r.
Qed.

Lemma ends_with_sound (suf s : string) : ends_with suf s = true → ∃ x, s = (x ++ suf)%string.
Proof.
  induction s as [|c s IH]; cbn [ends_with]; intros H.
  - rewrite orb_false_r in H. apply String.eqb_eq in H. subst. by exists "".
  - apply orb_true_iff in H as [H|H].
    + apply String.eqb_eq in H. rewrite <- H. by exists "".
    + destruct (IH H) as [x ->]. exists (String c x). reflexivity.
Qed.

Lemma ends_with_app_r (suf a b : string) : ends_with suf b = true → ends_with suf (a ++ b) = true.
Proof.
  intros H. destruct (ends_with_sound _ _ H) as [x ->].
  rewrite <- str_app_assoc. apply ends_with_app.
Qed.

Lemma ends_with_cons (suf b : string) (c : ascii) :
  ends_with suf b = true → ends_with suf (String c b) = true.
Proof. intros H. simpl. rewrite H. apply orb_true_r. Qed.

Lemma strip_prefix_app (p s : string) : strip_prefix p (p ++ s) = Some s.
Proof.
  induction p as [|c p IH]; [reflexivity|].
  rewrite str_app_cons. simpl. by rewrite Ascii.eqb_refl.
Qed.

Lemma strip_prefix_sound (p s r : string) : strip_prefix p s = Some r → s = (p ++ r)%string.
Proof.
  revert s. induction p as [|c p IH]; intros s H; simpl in *.
  - injection H as ->. reflexivity.
  - destruct s as [|c' s]; [discriminate|].
    destruct (Ascii.eqb c c') eqn:E; [|discriminate].
    apply Ascii.eqb_eq in E. subst. rewrite (IH s H). reflexivity.
Qed.

Lemma span_until_sound (d : ascii) (s a b : string) :
  span_until d s = Some (a, b) → s = (a ++ String d b)%string ∧ count_char d a = 0%nat.
Proof.
  revert a. induction s as [|c s IH]; intros a H; simpl in H; [discriminate|].
  destruct (Ascii.eqb c d) eqn:E.
  - injection H as <- <-. apply Ascii.eqb_eq in E. subst. auto.
  - destruct (span_until d s) as [[a' b']|] eqn:Es; [|discriminate].
    injection H as <- <-. destruct (IH a' eq_refl) as [-> Hc].
    split; [reflexivity|]. simpl. rewrite E. exact Hc.
Qed.

Lemma span_until_complete (d : ascii) (a b : string) :
  count_char d a = 0%nat → span_until d (a ++ String d b) = Some (a, b).
Proof.
  induction a as [|c a IH]; intros H.
  - simpl. by rewrite Ascii.eqb_refl.
  - rewrite str_app_cons. simpl in *. destruct (Ascii.eqb c d); [lia|]. by rewrite IH.
Qed.

Lemma span_until_app (d : ascii) (p s : string) :
  count_char d p = 0%nat →
  span_until d (p ++ s) =
    match span_until d s with Some (a, b) => Some ((p ++ a)%string, b) | None => None end.
Proof.
  induction p as [|c p IH]; intros H.
  - change ("" ++ s)%string with s. by destruct (span_until d s) as [[a b]|].
  - rewrite str_app_cons. simpl in *. destruct (Ascii.eqb c d); [lia|]. rewrite IH by lia.
    by destruct (span_until d s) as [[a b]|].
Qed.

Lemma re_plus_then_sound (d : ascii) (s a b : string) :
  re_plus_then d s = Some (a, b) → s = (a ++ String d b)%string ∧ valid_segment d a = true.
Proof.
  unfold re_plus_then. destruct (span_until d s) as [[a' b']|] eqn:E; [|discriminate].
  destruct (String.eqb a' "") eqn:Ee; [discriminate|]. intros H. injection H as <- <-.
  destruct (span_until_sound _ _ _ _ E) as [-> Hc]. split; [reflexivity|].
  unfold valid_segment. rewrite Ee, Hc. reflexivity.
Qed.

Lemma re_plus_then_complete (d : ascii) (a b : string) :
  valid_segment d a = true → re_plus_then d (a ++ String d b) = Some (a, b).
Proof.
  unfold valid_segment, re_plus_then. intros H. apply andb_true_iff in H as [He Hc].
  apply Nat.eqb_eq in Hc. rewrite span_until_complete by exact Hc.
  apply negb_true_iff in He. by rewrite He.
Qed.

Lemma re_dollar_true (r : string) : re_dollar r = true → r = "" ∨ r = nl.
Proof.
  destruct r as [|c [|c' r]]; simpl; intros H; try discriminate; [auto|].
  apply Ascii.eqb_eq in H. subst. auto.
Qed.

Lemma re_opt_git_dollar_true (t : string) :
  re_opt_git_dollar t = true → t = "" ∨ t = nl ∨ t = ".git" ∨ t = (".git" ++ nl)%string.
Proof.
  unfold re_opt_git_dollar. destruct (strip_prefix ".git" t) as [r|] eqn:E.
  - apply strip_prefix_sound in E. subst t. intros H.
    apply orb_true_iff in H as [H|H]; apply re_dollar_true in H as [H|H].
    + subst. auto.
    + subst. auto.
    + destruct r; discriminate.
    + destruct r; discriminate.
  - intros H. apply re_dollar_true in H as [H|H]; auto.
Qed.

Lemma re_opt_git_dollar_suffix (git : bool) : re_opt_git_dollar (git_suffix git) = true.
Proof. by destruct git. Qed.

Lemma valid_segment_cons (d c : ascii) (s : string) :
  valid_segment d (String c s) = true ↔ c ≠ d ∧ (count_char d s = 0)%nat.
Proof.
  unfold valid_segment. simpl. rewrite Nat.eqb_eq.
  destruct (Ascii.eqb c d) eqn:E.
  - apply Ascii.eqb_eq in E. split; [lia|]. tauto.
  - apply Ascii.eqb_neq in E. split; [intros; split; auto; lia|]. intros [_ H]. lia.
Qed.

Lemma re_lazy_repo_sound (s r : string) :
  re_lazy_repo s = Some r →
  valid_segment "/" r = true ∧ ∃ t, s = (r ++ t)%string ∧ re_opt_git_dollar t = true.
Proof.
  revert r. induction s as [|c s IH]; intros r H; simpl in H; [discriminate|].
  destruct (Ascii.eqb c "/") eqn:Ec; [discriminate|].
  apply Ascii.eqb_neq in Ec.
  destruct (re_opt_git_dollar s) eqn:Eg.
  - injection H as <-. split; [by apply valid_segment_cons|]. exists s. auto.
  - destruct (re_lazy_repo s) as [r'|] eqn:Er; [|discriminate]. injection H as <-.
    destruct (IH r' eq_refl) as [Hv (t & -> & Ht)].
    unfold valid_segment in Hv. apply andb_true_iff in Hv as [_ Hv]. apply Nat.eqb_eq in Hv.
    split; [by apply valid_segment_cons|]. exists t. auto.
Qed.

Lemma re_lazy_repo_complete (r t : string) :
  valid_segment "/" r = true → re_opt_git_dollar t = true →
  (∀ r1 r2, r = (r1 ++ r2)%string → r1 ≠ "" → r2 ≠ "" → re_opt_git_dollar (r2 ++ t) = false) →
  re_lazy_repo (r ++ t) = Some r.
Proof.
  induction r as [|c r IH]; intros Hv Ht Hfirst; [discriminate|].
  apply valid_segment_cons in Hv as [Hc Hr]. rewrite str_app_cons. simpl.
  apply Ascii.eqb_neq in Hc. rewrite Hc.
  destruct r as [|c' r'].
  - change ("" ++ t)%string with t. by rewrite Ht.
  - rewrite (Hfirst (String c "") (String c' r')) by (reflexivity || discriminate).
    rewrite IH; [reflexivity| | exact Ht|].
    + unfold valid_segment. rewrite Hr. reflexivity.
    + intros r1 r2 Hr12 H1 H2. apply (Hfirst (String c r1) r2); [|discriminate|exact H2].
      rewrite Hr12. reflexivity.
Qed.

Lemma re_tail_sound (z w r : string) :
  re_tail z = Some (w, r) →
  valid_segment "/" w = true ∧ valid_segment "/" r = true ∧
  ∃ t, z = (w ++ "/" ++ r ++ t)%string ∧ re_opt_git_dollar t = true.
Proof.
  unfold re_tail. destruct (re_plus_then "/" z) as [[w' z']|] eqn:E; [|discriminate].
  destruct (re_lazy_repo z') as [r'|] eqn:Er; [|discriminate].
  intros H. injection H as <- <-.
  destruct (re_plus_then_sound _ _ _ _ E) as [-> Hw].
  destruct (re_lazy_repo_sound _ _ Er) as [Hr (t & -> & Ht)].
  split; [exact Hw|split; [exact Hr|]]. exists t. auto.
Qed.

Lemma re_after_host_sound (y w r : string) :
  re_after_host y = Some (w, r) →
  valid_segment "/" w = true ∧ valid_segment "/" r = true ∧
  ∃ t, y = ("bitbucket.org/" ++ w ++ "/" ++ r ++ t)%string ∧ re_opt_git_dollar t = true.
Proof.
  unfold re_after_host. destruct (strip_prefix "bitbucket.org/" y) as [z|] eqn:E; [|discriminate].
  apply strip_prefix_sound in E. subst y. intros H.
  destruct (re_tail_sound _ _ _ H) as (Hw & Hr & t & -> & Ht). eauto 10.
Qed.

Lemma count_char_valid (d : ascii) (s : string) :
  valid_segment d s = true → count_char d s = 0%nat.
Proof. unfold valid_segment. intros H. apply andb_true_iff in H as [_ H]. by apply Nat.eqb_eq. Qed.

Lemma count_char_git_suffix (git : bool) : count_char "/" (git_suffix git) = 0%nat.
Proof. by destruct git. Qed.

Lemma re_after_host_slashes (y w r : string) :
  re_after_host y = Some (w, r) → (2 ≤ count_char "/" y)%nat.
Proof.
  intros H. destruct (re_after_host_sound _ _ _ H) as (_ & _ & t & -> & _).
  rewrite !count_char_app. simpl. lia.
Qed.

(** Which candidate the lazy slug group stops at, for a well-formed slug. *)
Lemma slug_first_stop (slug : string) (git : bool) :
  (git || negb (ends_with nl slug)) = true → slug_unambiguous slug git = true →
  ∀ r1 r2, slug = (r1 ++ r2)%string → r1 ≠ "" → r2 ≠ "" →
  re_opt_git_dollar (r2 ++ git_suffix git) = false.
Proof.
  intros Hnl Hu r1 r2 Hs H1 H2.
  destruct (re_opt_git_dollar (r2 ++ git_suffix git)) eqn:E; [exfalso|reflexivity].
  apply re_opt_git_dollar_true in E. unfold nl in *.
  destruct git.
  - simpl in E. destruct r2 as [|x [|y r2]]; [congruence| |].
    + simpl in E. destruct E as [E|[E|[E|E]]]; discriminate.
    + destruct E as [E|[E|[E|E]]]; apply (f_equal String.length) in E;
        rewrite str_length_app in E; simpl in E; lia.
  - simpl in Hnl. apply negb_true_iff in Hnl.
    change (git_suffix false) with "" in E. rewrite str_app_nil_r in E. subst slug.
    unfold slug_unambiguous in Hu. rewrite orb_false_l in Hu.
    destruct E as [E|[E|[E|E]]]; subst r2.
    + congruence.
    + rewrite ends_with_app in Hnl. discriminate.
    + apply orb_true_iff in Hu as [Hu|Hu].
      * apply String.eqb_eq, (f_equal String.length) in Hu. rewrite str_length_app in Hu.
        destruct r1; [congruence|]. simpl in Hu. lia.
      * rewrite ends_with_app in Hu. discriminate.
    + rewrite <- str_app_assoc, ends_with_app in Hnl. discriminate.
Qed.

Lemma re_tail_complete (ws slug : string) (git : bool) :
  valid_segment "/" ws = true → valid_segment "/" slug = true →
  (git || negb (ends_with nl slug)) = true → slug_unambiguous slug git = true →
  re_tail (ws ++ "/" ++ slug ++ git_suffix git) = Some (ws, slug).
Proof.
  intros Hw Hs Hnl Hu. unfold re_tail.
  change ("/" ++ ?x)%string with (String "/" x).
  rewrite (re_plus_then_complete "/" ws (slug ++ git_suffix git) Hw).
  rewrite re_lazy_repo_complete; auto using re_opt_git_dollar_suffix.
  eapply slug_first_stop; eauto.
Qed.

Lemma parse_https_complete (cred : option string) (ws slug : string) (git : bool) :
  cred_ok cred = true → valid_segment "/" ws = true → valid_segment "/" slug = true →
  (git || negb (ends_with nl slug)) = true → slug_unambiguous slug git = true →
  OriginUpdater.parse_bitbucket_origin (https_origin cred ws slug git) = Some (ws, slug).
Proof.
  intros Hc Hw Hs Hnl Hu.
  pose proof (re_tail_complete ws slug git Hw Hs Hnl Hu) as Htail.
  unfold OriginUpdater.parse_bitbucket_origin, https_origin, re_match_https. cbv zeta.
  rewrite strip_prefix_app. destruct cred as [c|].
  - simpl in Hc. change ("@" ++ ?x)%string with (String "@" x).
    rewrite (re_plus_then_complete "@" c _ Hc).
    unfold re_after_host. rewrite strip_prefix_app, Htail. reflexivity.
  - set (T := (ws ++ "/" ++ slug ++ git_suffix git)%string) in *.
    assert (Hinner : match re_plus_then "@" ("bitbucket.org/" ++ T) with
                     | Some (_, r) => re_after_host r
                     | None => None
                     end = None).
    { unfold re_plus_then. rewrite span_until_app by reflexivity.
      destruct (span_until "@" T) as [[a y]|] eqn:E; [|reflexivity].
      destruct (String.eqb _ ""); [reflexivity|].
      destruct (re_after_host y) as [[w' r']|] eqn:Ey; [exfalso|reflexivity].
      apply re_after_host_slashes in Ey.
      destruct (span_until_sound _ _ _ _ E) as [HT _].
      assert (Hc1 : count_char "/" T = 1%nat).
      { unfold T. rewrite !count_char_app, count_char_git_suffix. simpl.
        rewrite (count_char_valid _ _ Hw), (count_char_valid _ _ Hs). reflexivity. }
      rewrite HT, count_char_app in Hc1. simpl in Hc1. lia. }
    rewrite Hinner. unfold re_after_host. rewrite strip_prefix_app, Htail. reflexivity.
Qed.

Lemma parse_ssh_complete (ws slug : string) (git : bool) :
  valid_segment "/" ws = true → valid_segment "/" slug = true →
  (git || negb (ends_with nl slug)) = true → slug_unambiguous slug git = true →
  OriginUpdater.parse_bitbucket_origin (ssh_origin ws slug git) = Some (ws, slug).
Proof.
  intros Hw Hs Hnl Hu.
  assert (Hh : re_match_https (ssh_origin ws slug git) = None) by reflexivity.
  unfold OriginUpdater.parse_bitbucket_origin. rewrite Hh.
  unfold ssh_origin, re_match_ssh. rewrite strip_prefix_app, (re_tail_complete ws slug git Hw Hs Hnl Hu). reflexivity.
Qed.

Ltac ends_with_chain H :=
  repeat (first [ apply ends_with_app_r | apply ends_with_cons ]); exact H.

(** The end of a matched origin that is not followed by a newline is an
    optional [.git]. *)
Lemma opt_git_no_newline (t : string) :
  re_opt_git_dollar t = true → ends_with nl t = false → ∃ git, t = git_suffix git.
Proof.
  intros Ht Hnl. apply re_opt_git_dollar_true in Ht as [-> | [-> | [-> | ->]]].
  - by exists false.
  - discriminate.
  - by exists true.
  - rewrite ends_with_app in Hnl. discriminate.
Qed.

Lemma parse_sound (o w r : string) :
  ends_with nl o = false →
  OriginUpdater.parse_bitbucket_origin o = Some (w, r) →
  valid_segment "/" w = true ∧ valid_segment "/" r = true ∧
  ∃ git, (∃ cred, cred_ok cred = true ∧ o = https_origin cred w r git) ∨
         o = ssh_origin w r git.
Proof.
  intros Hnl. unfold OriginUpdater.parse_bitbucket_origin.
  destruct (re_match_https o) as [[w0 r0]|] eqn:Eh.
  - intros H. injection H as -> ->. unfold re_match_https in Eh.
    destruct (strip_prefix "https://" o) as [s|] eqn:Ep; [|discriminate].
    apply strip_prefix_sound in Ep. subst o.
    destruct (re_plus_then "@" s) as [[c y]|] eqn:Ec;
      [destruct (re_after_host y) as [[w1 r1]|] eqn:Ea|].
    + injection Eh as -> ->.
      destruct (re_plus_then_sound _ _ _ _ Ec) as [-> Hc].
      destruct (re_after_host_sound _ _ _ Ea) as (Hw & Hr & t & -> & Ht).
      destruct (ends_with nl t) eqn:Et.
      { assert (ends_with nl ("https://" ++ c ++ String "@" ("bitbucket.org/" ++ w ++ "/" ++ r ++ t)) = true)
          by ends_with_chain Et. congruence. }
      destruct (opt_git_no_newline t Ht Et) as [git ->].
      split; [exact Hw|split; [exact Hr|]]. exists git. left. exists (Some c). split; [exact Hc|reflexivity].
    + destruct (re_after_host_sound _ _ _ Eh) as (Hw & Hr & t & -> & Ht).
      destruct (ends_with nl t) eqn:Et.
      { assert (ends_with nl ("https://" ++ "bitbucket.org/" ++ w ++ "/" ++ r ++ t) = true)
          by ends_with_chain Et. congruence. }
      destruct (opt_git_no_newline t Ht Et) as [git ->].
      split; [exact Hw|split; [exact Hr|]]. exists git. left. exists None. split; reflexivity.
    + destruct (re_after_host_sound _ _ _ Eh) as (Hw & Hr & t & -> & Ht).
      destruct (ends_with nl t) eqn:Et.
      { assert (ends_with nl ("https://" ++ "bitbucket.org/" ++ w ++ "/" ++ r ++ t) = true)
          by ends_with_chain Et. congruence. }
      destruct (opt_git_no_newline t Ht Et) as [git ->].
      split; [exact Hw|split; [exact Hr|]]. exists git. left. exists None. split; reflexivity.
  - destruct (re_match_ssh o) as [[w0 r0]|] eqn:Es; [|discriminate].
    intros H. injection H as -> ->. unfold re_match_ssh in Es.
    destruct (strip_prefix "git@bitbucket.org:" o) as [s|] eqn:Ep; [|discriminate].
    apply strip_prefix_sound in Ep. subst o.
    destruct (re_tail_sound _ _ _ Es) as (Hw & Hr & t & -> & Ht).
    destruct (ends_with nl t) eqn:Et.
    { assert (ends_with nl ("git@bitbucket.org:" ++ w ++ "/" ++ r ++ t) = true)
        by ends_with_chain Et. congruence. }
    destruct (opt_git_no_newline t Ht Et) as [git ->].
    split; [exact Hw|split; [exact Hr|]]. exists git. right. reflexivity.
Qed.

(** C6 (a bug of the code): both copies of the HTTPS pattern accept a
    URL whose host is [example.com], since the credentials group [[^@]+]
    may contain [/]; and [$] lets a trailing newline through. *)
Lemma parse_accepts_foreign_host_and_newline :
  OriginUpdater.parse_bitbucket_origin "https://example.com/x@bitbucket.org/acme/widgets"
    = Some ("acme", "widgets") ∧
  UpdateGitOrigins.parse_bitbucket_origin "https://example.com/x@bitbucket.org/acme/widgets"
    = Some ("acme", "widgets") ∧
  OriginUpdater.parse_bitbucket_origin ("git@bitbucket.org:acme/widgets" ++ nl)
    = Some ("acme", "widgets").
Proof. repeat split; vm_compute; reflexivity. Qed.

(** What the parser accepts. For a workspace and a slug that are
    non-empty and free of [/], credentials that are non-empty and free of
    [@] (they may hold [/] or [:]), and a slug that, without the [.git]
    suffix, neither ends in a newline nor itself ends in [.git] (unless it
    is [.git]), the parser returns exactly [(workspace, slug)] for both URL
    shapes. Conversely, every string not ending in a newline that the
    parser accepts has one of the two shapes, with the returned workspace
    and slug non-empty and free of [/]. The two copies of the parser agree
    on every string. *)
Theorem parse_bitbucket_origin_shapes :
  (∀ cred ws slug git,
     cred_ok cred = true → valid_segment "/" ws = true → valid_segment "/" slug = true →
     (git || negb (ends_with nl slug)) = true → slug_unambiguous slug git = true →
     OriginUpdater.parse_bitbucket_origin (https_origin cred ws slug git) = Some (ws, slug) ∧
     OriginUpdater.parse_bitbucket_origin (ssh_origin ws slug git) = Some (ws, slug)) ∧
  (∀ o w r,
     ends_with nl o = false →
     OriginUpdater.parse_bitbucket_origin o = Some (w, r) →
     valid_segment "/" w = true ∧ valid_segment "/" r = true ∧
     ∃ git, (∃ cred, cred_ok cred = true ∧ o = https_origin cred w r git) ∨
            o = ssh_origin w r git) ∧
  (∀ o, UpdateGitOrigins.parse_bitbucket_origin o = OriginUpdater.parse_bitbucket_origin o).
Proof.
  split; [|split].
  - intros cred ws slug git Hc Hw Hs Hnl Hu. split.
    + exact (parse_https_complete cred ws slug git Hc Hw Hs Hnl Hu).
    + exact (parse_ssh_complete ws slug git Hw Hs Hnl Hu).
  - exact parse_sound.
  - exact parse_bitbucket_origin_same.
Qed.

Lemma parse_bitbucket_origin_shapes_witness :
  OriginUpdater.parse_bitbucket_origin (https_origin (Some "user") "acme" "widgets" true)
    = Some ("acme", "widgets").
Proof.
  apply (proj1 (proj1 parse_bitbucket_origin_shapes (Some "user") "acme" "widgets" true
                  eq_refl eq_refl eq_refl eq_refl eq_refl)).
Defined.

End OriginShapes.

(* ------------------------------------------------------------------ *)
(** ** The two copies of the local-origin rewrite (C9) *)

Module Duplicates.

Lemma obj_get_fold_defaults (l : list (string * json)) (k : string) (a1 a2 : json) :
  fold_left (fun acc '(k', v) => if String.eqb k k' then v else acc) l a1 =
  fold_left (fun acc '(k', v) => if String.eqb k k' then v else acc) l a2 ∨
  (fold_left (fun acc '(k', v) => if String.eqb k k' then v else acc) l a1 = a1 ∧
   fold_left (fun acc '(k', v) => if String.eqb k k' then v else acc) l a2 = a2).
Proof.
  revert a1 a2. induction l as [|[k' v] l IH]; intros a1 a2; simpl; [auto|].
  destruct (String.eqb k k'); [left; reflexivity|apply IH].
Qed.



(** [d.get(k, d1)] and [d.get(k, d2)] agree unless [k] is absent. *)
Lemma obj_get_defaults (l : list (string * json)) (k : string) (d1 d2 : json) :
  obj_get l k d1 = obj_get l k d2 ∨ (obj_get l k d1 = d1 ∧ obj_get l k d2 = d2).
Proof. apply obj_get_fold_defaults. Qed.

Lemma apply_updates_same (env : git_env) (updates : list RepoUpdate.t) :
  UpdateGitOrigins.apply_updates env updates = OriginUpdater.apply_updates env updates.
Proof.
  induction updates as [|item rest IH]; [reflexivity|].
  cbn [UpdateGitOrigins.apply_updates OriginUpdater.apply_updates]. rewrite IH. reflexivity.
Qed.








End Duplicates.

(* ------------------------------------------------------------------ *)
(** ** Further properties of the embedded code *)

Module StateFileFacts.
Import Orchestrator OrchestratorFacts StateFile.

Lemma py_dict_of_pairs_list_to_map (l : list (string * json)) :
  py_dict_of_pairs l = list_to_map (rev l).
Proof.
  induction l as [|[k v] l IH] using rev_ind; [reflexivity|].
  unfold py_dict_of_pairs in *. rewrite fold_left_app, IH, rev_app_distr.
  reflexivity.
Qed.

Lemma save_state_json_dict (plans : list RepoPlan.t) l :
  save_state_json plans = JObj l ->
  py_dict_of_pairs l = entry_json <$> save_state plans.
Proof.
  unfold save_state_json. intros [= <-].
  rewrite py_dict_of_pairs_list_to_map.
  rewrite <- (list_to_map_proper (prod_map id entry_json <$> merge_sort key_le (map_to_list (save_state plans)))).
  - rewrite list_to_map_fmap. f_equal.
    rewrite (list_to_map_proper _ (map_to_list (save_state plans))).
    + apply list_to_map_to_list.
    + rewrite merge_sort_Permutation. apply NoDup_fst_map_to_list.
    + apply merge_sort_Permutation.
  - rewrite <- list_fmap_compose. 
    change (fst ∘ prod_map id entry_json) with (@fst string Entry.t).
    rewrite merge_sort_Permutation. apply NoDup_fst_map_to_list.
  - apply Permutation_rev.
Qed.

Lemma load_save_core (plans : list RepoPlan.t) :
  Migrator.load_state (FileJson (save_state_json plans)) = save_state plans /\
  UpdateGitOrigins.load_state (FileJson (save_state_json plans)) = Ok (save_state plans).
Proof.
  destruct (save_state_json plans) as [| | | | |l] eqn:Hj;
    try (unfold save_state_json in Hj; discriminate).
  pose proof (save_state_json_dict plans l Hj) as Hd.
  cbn [Migrator.load_state UpdateGitOrigins.load_state]. rewrite Hd.
  split; [|f_equal]; apply map_eq; intros k;
    rewrite lookup_omap, lookup_fmap; destruct (save_state plans !! k) as [[]|]; reflexivity.
Qed.

Lemma apply_existing_state_saved (plans qs : list RepoPlan.t) :
  apply_existing_state (FileJson (save_state_json plans)) qs = apply_record (save_state plans) <$> qs.
Proof.
  unfold apply_existing_state. rewrite (proj1 (load_save_core plans)).
  destruct (size (save_state plans) =? 0)%nat eqn:Hs; [|reflexivity].
  apply Nat.eqb_eq, map_size_empty_iff in Hs. rewrite Hs.
  induction qs as [|q qs IH]; [reflexivity|].
  simpl. rewrite <- IH at 1. unfold apply_record at 1. rewrite lookup_empty. reflexivity.
Qed.

(** The state file written by [save_state] reads back, through the loader
    of either script, as the mapping [save_state] built: one record per plan
    key, with the status and target of the last plan of that key. *)
Theorem load_state_save_state_json (plans : list RepoPlan.t) :
  Migrator.load_state (FileJson (save_state_json plans)) = save_state plans /\
  UpdateGitOrigins.load_state (FileJson (save_state_json plans)) = Ok (save_state plans).
Proof. apply load_save_core. Qed.

(** Resuming from a state file written by [save_state]: a plan of the new
    run whose key is the key of exactly one saved plan [p] takes [p]'s
    status, and [p]'s target when both of its parts are non-empty; its
    source is kept. *)
Theorem resume_from_saved_state (plans qs : list RepoPlan.t) (i j : nat) (p q : RepoPlan.t) :
  plans !! i = Some p ->
  (forall i' p', plans !! i' = Some p' -> plan_key p' = plan_key p -> i' = i) ->
  qs !! j = Some q ->
  plan_key q = plan_key p ->
  apply_existing_state (FileJson (save_state_json plans)) qs !! j =
    Some (if truthy (RepoPlan.target_owner p) && truthy (RepoPlan.target_name p)
          then RepoPlan.mk (RepoPlan.source q) (RepoPlan.target_owner p)
                           (RepoPlan.target_name p) (RepoPlan.status p)
          else RepoPlan.mk (RepoPlan.source q) (RepoPlan.target_owner q)
                           (RepoPlan.target_name q) (RepoPlan.status p)).
Proof.
  intros Hp Huniq Hq Hk.
  rewrite apply_existing_state_saved, list_lookup_fmap, Hq. simpl. f_equal.
  unfold apply_record. rewrite Hk, (Failures.save_state_unique_key plans i p Hp Huniq).
  reflexivity.
Qed.

(** Resuming from a state file written by [save_state] leaves a plan
    unchanged when no saved plan has its key. *)
Theorem resume_leaves_unsaved_plans (plans qs : list RepoPlan.t) (j : nat) (q : RepoPlan.t) :
  qs !! j = Some q ->
  (forall p, p ∈ plans -> plan_key p <> plan_key q) ->
  apply_existing_state (FileJson (save_state_json plans)) qs !! j = Some q.
Proof.
  intros Hq Hnot.
  rewrite apply_existing_state_saved, list_lookup_fmap, Hq. simpl. f_equal.
  unfold apply_record.
  destruct (save_state plans !! plan_key q) as [e|] eqn:He; [|reflexivity].
  destruct (save_state_lookup _ _ _ He) as (p & Hin & Hk & _).
  exfalso. exact (Hnot p Hin Hk).
Qed.

Definition tools_repo : BitbucketRepo.t :=
  BitbucketRepo.mk "acme" "tools" "Tools" "https://bitbucket.org/acme/tools.git"
    "https://bitbucket.org/acme/tools".
Definition env_mirror_ok : env := {|
  gh_username := "me";
  create_github_repo := fun _ _ _ _ => Ok (true, "created");
  fetch_is_empty := fun _ _ _ => Ok true;
  prompt_push_anyway := fun _ => Ok false;
  mirror_repo := fun _ _ _ _ => Ok tt |}.
Definition tools_plan := RepoPlan.mk tools_repo "me" "tools" "pending".
Definition tools_done := RepoPlan.with_status tools_plan "done".
Definition tools_evs : list event :=
  [ESave (save_state [RepoPlan.with_status tools_plan "in_progress"]);
   ECreate 0 "me" "tools"; EMirror 0; ESave (save_state [tools_done])].

(** The ledger saved after [acme/tools] was mirrored to [me/tools-archive]. *)
Definition tools_archived := RepoPlan.mk tools_repo "me" "tools-archive" "done".

Lemma resume_from_saved_state_witness :
  apply_existing_state (FileJson (save_state_json [tools_archived])) [tools_plan] !! 0%nat =
    Some (RepoPlan.mk tools_repo "me" "tools-archive" "done").
Proof.
  apply (resume_from_saved_state [tools_archived] [tools_plan] 0 0 tools_archived tools_plan).
  - reflexivity.
  - intros [|i'] p' H; [reflexivity|discriminate H].
  - reflexivity.
  - reflexivity.
Defined.

Definition widgets_src : BitbucketRepo.t :=
  BitbucketRepo.mk "acme" "widgets" "Widgets" "https://bitbucket.org/acme/widgets.git"
    "https://bitbucket.org/acme/widgets".

Lemma resume_leaves_unsaved_plans_witness :
  apply_existing_state (FileJson (save_state_json [tools_archived]))
    [RepoPlan.mk widgets_src "me" "widgets" "pending"] !! 0%nat =
    Some (RepoPlan.mk widgets_src "me" "widgets" "pending").
Proof.
  apply (resume_leaves_unsaved_plans [tools_archived] _ 0 (RepoPlan.mk widgets_src "me" "widgets" "pending")).
  - reflexivity.
  - intros p Hp. apply list_elem_of_singleton in Hp as ->. vm_compute. discriminate.
Defined.

End StateFileFacts.

Module LoopOutcome.
Import Orchestrator.

Lemma try_block_ok (E : env) (i : nat) (p : RepoPlan.t) (ps ps' : list RepoPlan.t) (evs : list event) :
  try_block E i p ps = (Ok ps', evs) ->
  exists s,
    (s = "done" /\ mirror_repo E i (RepoPlan.source p) (RepoPlan.target_owner p)
                               (RepoPlan.target_name p) = Ok tt \/ s = "pending") /\
    ps' = <[i := RepoPlan.with_status p s]> ps /\
    last evs = Some (ESave (save_state ps')).
Proof.
  unfold try_block; cbv zeta. intros H.
  repeat case_match; simplify_eq;
    try match goal with u : unit |- _ => destruct u end.
  all: first [ exists "done"; split; [left; split; [reflexivity|first [reflexivity|assumption]]|split; reflexivity]
          | exists "pending"; split; [right; reflexivity|split; reflexivity] ].
Qed.

(** One iteration: nothing changes, or plan [i] gets a new status; a
    ["done"] status needs a successful mirror, and when no exception
    escapes the status is ["done"] or ["pending"] and the last effect is
    the save of the resulting plans. *)
Lemma migrate_one_outcome (E : env) (i : nat) (ps ps' : list RepoPlan.t) evs r :
  migrate_one E i ps = (ps', evs, r) ->
  (ps' = ps /\ evs = [] /\ r = None /\
     forall p, ps !! i = Some p -> RepoPlan.status p = "done") \/
  (exists p s, ps !! i = Some p /\ ps' = <[i := RepoPlan.with_status p s]> ps /\
     (s = "done" -> mirror_repo E i (RepoPlan.source p) (RepoPlan.target_owner p)
                                (RepoPlan.target_name p) = Ok tt) /\
     (r = None -> (s = "done" \/ s = "pending") /\
                  last evs = Some (ESave (save_state ps')))).
Proof.
  unfold migrate_one.
  destruct (ps !! i) as [p|] eqn:Hi.
  2:{ intros [= <- <- <-]. left. repeat split. intros; discriminate. }
  destruct (String.eqb (RepoPlan.status p) "done") eqn:Hd.
  { intros [= <- <- <-]. left. repeat split. intros p' [= <-]. by apply String.eqb_eq. }
  destruct (try_block E i p (<[i := RepoPlan.with_status p "in_progress"]> ps))
    as [[ps2|e] evs0] eqn:Ht.
  - intros [= <- <- <-].
    destruct (try_block_ok E i p _ _ _ Ht) as (s & Hs & -> & Hlast).
    rewrite list_insert_insert_eq in Hlast |- *.
    right. exists p, s. split; [reflexivity|]. split; [reflexivity|]. split.
    + intros ->. destruct Hs as [[_ Hm]|Hs]; [exact Hm|discriminate].
    + intros _. split; [destruct Hs as [[-> _] | ->]; auto|].
      rewrite last_cons, Hlast. reflexivity.
  - destruct (is_Exception e).
    + intros [= <- <- <-]. right. exists p, "pending".
      rewrite list_insert_insert_eq. split; [reflexivity|]. split; [reflexivity|].
      split; [discriminate|]. intros _. split; [auto|].
      rewrite app_comm_cons, last_snoc. reflexivity.
    + intros [= <- <- <-]. right. exists p, "in_progress".
      split; [reflexivity|]. split; [reflexivity|]. split; discriminate.
Qed.

(** The loop only changes statuses: every plan keeps its position, source
    and targets, and ends ["done"] only if it was ["done"] already or its
    mirror succeeded. *)
Definition loop_inv (E : env) (plans0 ps : list RepoPlan.t) : Prop :=
  length ps = length plans0 /\
  forall j q, ps !! j = Some q ->
    exists p, plans0 !! j = Some p /\
      RepoPlan.source q = RepoPlan.source p /\
      RepoPlan.target_owner q = RepoPlan.target_owner p /\
      RepoPlan.target_name q = RepoPlan.target_name p /\
      (RepoPlan.status q = "done" ->
         RepoPlan.status p = "done" \/
         mirror_repo E j (RepoPlan.source p) (RepoPlan.target_owner p)
                     (RepoPlan.target_name p) = Ok tt).

Lemma loop_inv_step (E : env) (plans0 : list RepoPlan.t) (i : nat) (ps : list RepoPlan.t) :
  loop_inv E plans0 ps ->
  match migrate_one E i ps with
  | (ps', evs, _) => loop_inv E plans0 ps' /\ forall ev, ev ∈ evs -> True
  end.
Proof.
  intros [Hlen Hinv].
  destruct (migrate_one E i ps) as [[ps' evs] r] eqn:Hm.
  split; [|auto].
  destruct (migrate_one_outcome E i ps ps' evs r Hm) as [(-> & _)|(p & s & Hi & -> & Hdone & _)];
    [split; assumption|].
  split; [by rewrite length_insert|].
  intros j q Hj.
  destruct (decide (j = i)) as [->|Hne].
  - rewrite list_lookup_insert_eq in Hj by (eapply lookup_lt_Some; eauto).
    injection Hj as <-.
    destruct (Hinv i p Hi) as (p0 & Hp0 & Hs & Ho & Hn & _).
    exists p0. simpl. repeat split; try assumption.
    intros Hsd. right. rewrite <- Hs, <- Ho, <- Hn. exact (Hdone Hsd).
  - rewrite list_lookup_insert_ne in Hj by congruence. exact (Hinv j q Hj).
Qed.

Lemma migrate_loop_clean (E : env) (idxs : list nat) (ps ps' : list RepoPlan.t) evs :
  migrate_loop E idxs ps = (ps', evs, None) ->
  length ps' = length ps /\
  (forall j, j ∉ idxs -> ps' !! j = ps !! j) /\
  (forall j q, j ∈ idxs -> ps' !! j = Some q ->
     RepoPlan.status q = "done" \/ RepoPlan.status q = "pending") /\
  ((evs = [] /\ ps' = ps) \/ last evs = Some (ESave (save_state ps'))).
Proof.
  revert ps ps' evs. induction idxs as [|i rest IH]; simpl; intros ps ps' evs H.
  - injection H as <- <-. split; [reflexivity|]. split; [reflexivity|].
    split; [intros j q Hj; by apply not_elem_of_nil in Hj|]. left; auto.
  - destruct (migrate_one E i ps) as [[ps1 evs1] [e|]] eqn:Hm; [discriminate|].
    destruct (migrate_loop E rest ps1) as [[ps2 evs2] r2] eqn:Hl.
    injection H as <- <- ->.
    destruct (IH ps1 ps2 evs2 Hl) as (Hlen & Hout & Hin & Hlast).
    assert (Hstep : length ps1 = length ps /\
                    (forall j, j <> i -> ps1 !! j = ps !! j) /\
                    (forall q, ps1 !! i = Some q ->
                       RepoPlan.status q = "done" \/ RepoPlan.status q = "pending") /\
                    ((evs1 = [] /\ ps1 = ps) \/ last evs1 = Some (ESave (save_state ps1)))).
    { destruct (migrate_one_outcome E i ps ps1 evs1 None Hm)
        as [(-> & -> & _ & Hd)|(p & s & Hi & -> & _ & Hs)].
      - split; [reflexivity|]. split; [reflexivity|].
        split; [intros q Hq; left; exact (Hd q Hq)|]. left; auto.
      - destruct (Hs eq_refl) as [Hs' Hl1].
        split; [by rewrite length_insert|].
        split; [intros j Hj; by rewrite list_lookup_insert_ne by congruence|].
        split; [|right; exact Hl1].
        intros q Hq. rewrite list_lookup_insert_eq in Hq by (eapply lookup_lt_Some; eauto).
        injection Hq as <-. exact Hs'. }
    destruct Hstep as (Hlen1 & Hout1 & Hin1 & Hlast1).
    split; [congruence|]. split.
    { intros j Hj. rewrite Hout by (intros ?; apply Hj; by apply elem_of_cons; right).
      apply Hout1. intros ->. apply Hj. apply elem_of_cons; left; reflexivity. }
    split.
    { intros j q Hj Hq. destruct (decide (j ∈ rest)) as [Hr|Hr]; [exact (Hin j q Hr Hq)|].
      apply elem_of_cons in Hj as [->|Hj]; [|contradiction].
      rewrite Hout in Hq by exact Hr. exact (Hin1 q Hq). }
    destruct Hlast as [[-> ->]|Hlast].
    + rewrite app_nil_r. destruct Hlast1 as [[-> ->]|Hlast1]; [left; auto|right; exact Hlast1].
    + right. rewrite last_app, Hlast. reflexivity.
Qed.
End LoopOutcome.

Module LoopEnd.
Import Orchestrator LoopOutcome StateFileFacts.

(** When the mirroring loop of [main] ends without an uncaught exception,
    every plan is "done" or "pending" (none is left "in_progress" or
    "failed" mid-way), and the last event is a save of the final plans,
    unless there was no event at all and the plans are unchanged. *)
Theorem main_loop_clean_end (E : env) (plans final : list RepoPlan.t) (evs : list event) :
  main_loop E plans = (final, evs, None) ->
  (forall q, q ∈ final -> RepoPlan.status q = "done" \/ RepoPlan.status q = "pending") /\
  ((evs = [] /\ final = plans) \/ last evs = Some (ESave (save_state final))).
Proof.
  unfold main_loop. intros H.
  destruct (migrate_loop_clean E _ _ _ _ H) as (Hlen & _ & Hin & Hlast).
  split; [|exact Hlast].
  intros q Hq. apply list_elem_of_lookup_1 in Hq as [j Hj].
  apply (Hin j q); [|exact Hj].
  apply elem_of_seq. apply lookup_lt_Some in Hj. lia.
Qed.

(** However the mirroring loop ends, each plan keeps its source and
    target, and a plan ends up "done" only if it was "done" before the loop
    or the mirror of its repository to its target succeeded. *)
Theorem main_loop_done_needs_mirror (E : env) (plans final : list RepoPlan.t) evs r (j : nat) (q : RepoPlan.t) :
  main_loop E plans = (final, evs, r) ->
  final !! j = Some q ->
  exists p, plans !! j = Some p /\
    RepoPlan.source q = RepoPlan.source p /\
    RepoPlan.target_owner q = RepoPlan.target_owner p /\
    RepoPlan.target_name q = RepoPlan.target_name p /\
    (RepoPlan.status q = "done" ->
       RepoPlan.status p = "done" \/
       mirror_repo E j (RepoPlan.source p) (RepoPlan.target_owner p)
                   (RepoPlan.target_name p) = Ok tt).
Proof.
  unfold main_loop. intros H Hj.
  pose proof (LoopFacts.migrate_loop_invariant (loop_inv E plans) (fun _ => True) E
                (loop_inv_step E plans) (seq 0 (length plans)) plans) as Hinv.
  rewrite H in Hinv. destruct Hinv as [[_ Hinv] _].
  - split; [reflexivity|]. intros j' q' Hq'. exists q'. repeat split; auto.
  - exact (Hinv j q Hj).
Qed.
Lemma main_loop_clean_end_witness :
  main_loop env_mirror_ok [tools_plan] = ([tools_done], tools_evs, None) /\
  (forall q, q ∈ [tools_done] -> RepoPlan.status q = "done" \/ RepoPlan.status q = "pending") /\
  ((tools_evs = [] /\ [tools_done] = [tools_plan]) \/
   last tools_evs = Some (ESave (save_state [tools_done]))).
Proof.
  split; [vm_compute; reflexivity|].
  apply (main_loop_clean_end env_mirror_ok [tools_plan] [tools_done] tools_evs).
  vm_compute; reflexivity.
Defined.

Lemma main_loop_done_needs_mirror_witness :
  main_loop env_mirror_ok [tools_plan] = ([tools_done], tools_evs, None) /\
  [tools_done] !! 0%nat = Some tools_done /\
  exists p, [tools_plan] !! 0%nat = Some p /\
    RepoPlan.source tools_done = RepoPlan.source p /\
    RepoPlan.target_owner tools_done = RepoPlan.target_owner p /\
    RepoPlan.target_name tools_done = RepoPlan.target_name p /\
    (RepoPlan.status tools_done = "done" ->
       RepoPlan.status p = "done" \/
       mirror_repo env_mirror_ok 0 (RepoPlan.source p) (RepoPlan.target_owner p)
                   (RepoPlan.target_name p) = Ok tt).
Proof.
  split; [vm_compute; reflexivity|]. split; [reflexivity|].
  apply (main_loop_done_needs_mirror env_mirror_ok [tools_plan] [tools_done] tools_evs None 0 tools_done);
    [vm_compute; reflexivity|reflexivity].
Defined.
End LoopEnd.

Module ApplyTrace.

(** The commands [apply_updates] runs for one update, in order. *)
Definition update_commands (item : RepoUpdate.t) : list gitcmd :=
  (RepoUpdate.path item, cmd_set_url (RepoUpdate.new_origin item)) ::
  (if RepoUpdate.update_pushurl item
   then [(RepoUpdate.path item, cmd_set_push_url (RepoUpdate.new_origin item))] else []).

Lemma update_commands_push (item : RepoUpdate.t) :
  RepoUpdate.update_pushurl item = true ->
  update_commands item = [(RepoUpdate.path item, cmd_set_url (RepoUpdate.new_origin item));
                          (RepoUpdate.path item, cmd_set_push_url (RepoUpdate.new_origin item))].
Proof. intros H. unfold update_commands. rewrite H. reflexivity. Qed.

Lemma update_commands_no_push (item : RepoUpdate.t) :
  RepoUpdate.update_pushurl item = false ->
  update_commands item = [(RepoUpdate.path item, cmd_set_url (RepoUpdate.new_origin item))].
Proof. intros H. unfold update_commands. rewrite H. reflexivity. Qed.

(** Both copies of [apply_updates] run the same git commands and return
    the same result. On success they returned the updates with a push-URL
    conflict, after running [remote set-url origin] (and [--push] when the
    update says so) for every update in order, each command succeeding. On
    failure the commands ran in the same order up to the first one that
    failed, which is the last one run. *)
Theorem apply_updates_trace (env : git_env) (updates : list RepoUpdate.t) :
  UpdateGitOrigins.apply_updates env updates = OriginUpdater.apply_updates env updates /\
  match OriginUpdater.apply_updates env updates with
  | (Ok conflicts, cs) =>
      conflicts = filter (fun u => RepoUpdate.pushurl_conflict u = true) updates /\
      cs = concat (update_commands <$> updates) /\
      forall c, c ∈ cs -> is_Some (env c.1 c.2)
  | (Raise e, cs) =>
      exists pre item post k c,
        updates = (pre ++ item :: post)%list /\
        update_commands item !! k = Some c /\
        cs = (concat (update_commands <$> pre) ++ take (S k) (update_commands item))%list /\
        env c.1 c.2 = None /\
        forall c', c' ∈ (concat (update_commands <$> pre) ++ take k (update_commands item))%list ->
                   is_Some (env c'.1 c'.2)
  end.
Proof.
  split; [apply Duplicates.apply_updates_same|].
  induction updates as [|item rest IH].
  { simpl. split; [reflexivity|]. split; [reflexivity|]. intros c Hc. by apply not_elem_of_nil in Hc. }
  cbn [OriginUpdater.apply_updates]. unfold run_git_capture. cbv zeta. simpl.
  destruct (env (RepoUpdate.path item) (cmd_set_url (RepoUpdate.new_origin item))) as [o1|] eqn:H1.
  2:{ exists [], item, rest, 0%nat, (RepoUpdate.path item, cmd_set_url (RepoUpdate.new_origin item)).
      repeat split; [exact H1|]. intros c' Hc'. by apply not_elem_of_nil in Hc'. }
  destruct (RepoUpdate.update_pushurl item) eqn:Hp;
    [pose proof (update_commands_push item Hp) as Hu|pose proof (update_commands_no_push item Hp) as Hu].
  - destruct (env (RepoUpdate.path item) (cmd_set_push_url (RepoUpdate.new_origin item))) as [o2|] eqn:H2.
    2:{ exists [], item, rest, 1%nat, (RepoUpdate.path item, cmd_set_push_url (RepoUpdate.new_origin item)).
        split; [reflexivity|]. split; [rewrite ?Hu, ?Hp; reflexivity|].
        split; [rewrite ?Hu, ?Hp; reflexivity|]. split; [exact H2|].
        intros c' Hc'. rewrite ?Hu, ?Hp in Hc'. simpl in Hc'. apply elem_of_cons in Hc' as [->|Hc']; [simpl; by rewrite H1|].
        by apply not_elem_of_nil in Hc'. }
    destruct (OriginUpdater.apply_updates env rest) as [[conflicts|e] cs] eqn:Hr.
    + destruct IH as (-> & -> & Hok). simpl.
      split; [destruct (RepoUpdate.pushurl_conflict item) eqn:Hc;
              [rewrite filter_cons_True by exact Hc|rewrite filter_cons_False by congruence]; reflexivity|].
      split; [rewrite ?Hu, ?Hp; reflexivity|].
      intros c Hc. apply elem_of_cons in Hc as [->|Hc]; [simpl; by rewrite H1|].
      apply elem_of_cons in Hc as [->|Hc]; [simpl; by rewrite H2|]. exact (Hok c Hc).
    + destruct IH as (pre & it & post & k & c & -> & Hk & -> & Hc & Hok).
      exists (item :: pre), it, post, k, c.
      split; [reflexivity|]. split; [exact Hk|].
      split; [simpl; rewrite ?Hu, ?Hp; reflexivity|]. split; [exact Hc|].
      intros c' Hc'. simpl in Hc'. rewrite ?Hu, ?Hp in Hc'.
      apply elem_of_cons in Hc' as [->|Hc']; [simpl; by rewrite H1|].
      apply elem_of_cons in Hc' as [->|Hc']; [simpl; by rewrite H2|]. exact (Hok c' Hc').
  - destruct (OriginUpdater.apply_updates env rest) as [[conflicts|e] cs] eqn:Hr.
    + destruct IH as (-> & -> & Hok). simpl.
      split; [destruct (RepoUpdate.pushurl_conflict item) eqn:Hc;
              [rewrite filter_cons_True by exact Hc|rewrite filter_cons_False by congruence]; reflexivity|].
      split; [rewrite ?Hu, ?Hp; reflexivity|].
      intros c Hc. apply elem_of_cons in Hc as [->|Hc]; [simpl; by rewrite H1|]. exact (Hok c Hc).
    + destruct IH as (pre & it & post & k & c & -> & Hk & -> & Hc & Hok).
      exists (item :: pre), it, post, k, c.
      split; [reflexivity|]. split; [exact Hk|].
      split; [simpl; rewrite ?Hu, ?Hp; reflexivity|]. split; [exact Hc|].
      intros c' Hc'. simpl in Hc'. rewrite ?Hu, ?Hp in Hc'.
      apply elem_of_cons in Hc' as [->|Hc']; [simpl; by rewrite H1|]. exact (Hok c' Hc').
Qed.
End ApplyTrace.

Module CreateRepo.
Import GitHub.

(** [create_github_repo] passes on an exception of the HTTP call; otherwise
    it reports "created" exactly for status 201 or 202, and any other
    answer it returns is "exists" for a status of 422 (every other status
    raises). *)
Theorem create_github_repo_result (http : http_env) (token owner : string) (owner_is_user : bool)
    (repo_name : string) :
  match http (create_repo_url owner owner_is_user) "POST" (github_auth_header token)
             (Some (create_repo_body repo_name)) with
  | Raise e => create_github_repo http token owner owner_is_user repo_name = Raise e
  | Ok (status, data) =>
      (create_github_repo http token owner owner_is_user repo_name = Ok (true, "created") <->
       status = 201%Z \/ status = 202%Z) /\
      (forall r, create_github_repo http token owner owner_is_user repo_name = Ok r ->
         r = (true, "created") \/ (r = (false, "exists") /\ status = 422%Z))
  end.
Proof.
  unfold create_github_repo; cbv zeta.
  destruct (http _ _ _ _) as [[status data]|e]; [|reflexivity].
  destruct (bool_decide_reflect (status = 201 \/ status = 202)%Z) as [Hs|Hs].
  - split; [split; [intros _; exact Hs|reflexivity]|]. intros r [= <-]. left; reflexivity.
  - destruct (Z.eqb_spec status 422) as [->|Hne].
    + destruct data as [| | | | |d]; try (split; [split; [discriminate|intros []; discriminate]|intros r; discriminate]).
      split; [split; [|intros []; discriminate]|].
      * repeat case_match; discriminate.
      * intros r. repeat case_match; intros [= <-]; right; auto.
    + split; [split; [|intros H; exfalso; exact (Hs H)]|].
      * destruct data; discriminate.
      * intros r. destruct data; discriminate.
Qed.

(** A 422 answer whose message is a string and whose "errors" list is not
    empty is reported as "exists", whatever the errors say. *)
Theorem create_github_repo_422_errors (http : http_env) (token owner : string) (owner_is_user : bool)
    (repo_name : string) (d : list (string * json)) (m : string) (err : json) (rest : list json) :
  http (create_repo_url owner owner_is_user) "POST" (github_auth_header token)
       (Some (create_repo_body repo_name)) = Ok (422%Z, JObj d) ->
  obj_get d "message" (JStr "") = JStr m ->
  obj_get d "errors" (JArr []) = JArr (err :: rest) ->
  create_github_repo http token owner owner_is_user repo_name = Ok (false, "exists").
Proof.
  intros Hh Hm He. unfold create_github_repo; cbv zeta.
  rewrite Hh, Hm, He. simpl.
  destruct (py_contains _ _); [reflexivity|].
  destruct err; try reflexivity. destruct (py_contains _ _); reflexivity.
Qed.

(** A 422 answer for a name GitHub rejects as too long. *)
Definition name_too_long_response : json :=
  JObj [("message", JStr "Repository creation failed.");
        ("errors", JArr [JObj [("resource", JStr "Repository"); ("code", JStr "custom");
                               ("field", JStr "name"); ("message", JStr "name is too long")]])].

Definition http_name_too_long : http_env := fun _ _ _ _ => Ok (422%Z, name_too_long_response).

Lemma create_github_repo_422_errors_witness :
  create_github_repo http_name_too_long "tok" "acme" false "widgets" = Ok (false, "exists").
Proof.
  apply (create_github_repo_422_errors http_name_too_long "tok" "acme" false "widgets"
           [("message", JStr "Repository creation failed.");
            ("errors", JArr [JObj [("resource", JStr "Repository"); ("code", JStr "custom");
                                   ("field", JStr "name"); ("message", JStr "name is too long")]])]
           "Repository creation failed."
           (JObj [("resource", JStr "Repository"); ("code", JStr "custom");
                  ("field", JStr "name"); ("message", JStr "name is too long")]) []);
    reflexivity.
Defined.
End CreateRepo.

Module Retry.
Import GitHub.

(** What a single [run_git] call amounts to when it is the last one. *)
Definition run_outcome (rr : run_result) : outcome unit :=
  match rr with
  | RunOk => Ok tt
  | RunFailed m => Raise (ExcException m)
  | RunRaised e => Raise e
  end.

Lemma retry_loop_spec (run : Z -> run_result) (retries delay : Z) (n : nat) :
  (0 <= delay)%Z ->
  forall (a : Z) (last_error : option string),
  (a + Z.of_nat n - 1 = retries)%Z -> (0 < n)%nat ->
  match retry_loop run retries delay (seqZ a (Z.of_nat n)) last_error with
  | (r, evs) =>
      exists k, (a <= k <= retries)%Z /\
        (forall j, (a <= j < k)%Z -> exists m, run j = RunFailed m) /\
        evs = (concat ((fun j => [RAttempt j; RSleep delay]) <$> seqZ a (k - a)) ++ [RAttempt k])%list /\
        r = run_outcome (run k) /\
        (forall m, run k = RunFailed m -> k = retries)
  end.
Proof.
  intros Hd. induction n as [|n IH]; intros a last_error Hn Hpos; [lia|].
  rewrite seqZ_cons by lia. cbn [retry_loop].
  replace (Z.pred (Z.of_nat (S n))) with (Z.of_nat n) by lia.
  destruct (run a) as [|m|e] eqn:Hra.
  - exists a. split; [lia|]. split; [intros j Hj'; lia|].
    rewrite Z.sub_diag, seqZ_nil by lia. split; [reflexivity|]. rewrite Hra.
    split; [reflexivity|]. intros m' [=].
  - destruct (Z.leb_spec retries a) as [Hle|Hlt].
    + exists a. split; [lia|]. split; [intros j Hj'; lia|].
      rewrite Z.sub_diag, seqZ_nil by lia. split; [reflexivity|]. rewrite Hra.
      split; [reflexivity|]. intros _ _. lia.
    + destruct (Z.ltb_spec delay 0) as [Hneg|_]; [lia|].
      assert (Hn0 : (0 < n)%nat) by lia.
      specialize (IH (Z.succ a) (Some m) ltac:(lia) Hn0).
      destruct (retry_loop run retries delay (seqZ (Z.succ a) (Z.of_nat n)) (Some m)) as [r evs].
      destruct IH as (k & Hk & Hj & -> & -> & Hlast).
      exists k. split; [lia|]. split.
      { intros j Hj'. destruct (Z.eq_dec j a) as [->|Hne]; [eauto|]. apply Hj. lia. }
      split; [|split; [reflexivity|exact Hlast]].
      rewrite (seqZ_cons a (k - a)) by lia.
      replace (Z.pred (k - a)) with (k - Z.succ a)%Z by lia. reflexivity.
  - exists a. split; [lia|]. split; [intros j Hj'; lia|].
    rewrite Z.sub_diag, seqZ_nil by lia. split; [reflexivity|]. rewrite Hra.
    split; [reflexivity|]. intros m' [=].
Qed.

(** For a non-negative [delay_seconds] (a negative one makes [time.sleep]
    raise [ValueError] at the first retry): [run_git_with_retry] runs
    nothing and succeeds when [retries] is not
    positive. Otherwise it makes attempts 1, 2, ..., k, sleeping
    [delay_seconds] after each failed one, where every attempt before k
    failed with a non-zero exit and attempt k succeeded, raised, or failed
    as the last allowed attempt; the result is that of attempt k. *)
Theorem run_git_with_retry_attempts (run : Z -> run_result) (retries delay : Z) :
  (0 <= delay)%Z ->
  match run_git_with_retry run retries delay with
  | (r, evs) =>
      ((retries <= 0)%Z -> r = Ok tt /\ evs = []) /\
      ((0 < retries)%Z ->
        exists k, (1 <= k <= retries)%Z /\
          (forall j, (1 <= j < k)%Z -> exists m, run j = RunFailed m) /\
          evs = (concat ((fun j => [RAttempt j; RSleep delay]) <$> seqZ 1 (k - 1)) ++ [RAttempt k])%list /\
          r = run_outcome (run k) /\
          (forall m, run k = RunFailed m -> k = retries))
  end.
Proof.
  intros Hd. unfold run_git_with_retry.
  destruct (Z.leb_spec retries 0) as [Hle|Hlt].
  - rewrite seqZ_nil by lia. simpl. split; [auto|intros; lia].
  - pose proof (retry_loop_spec run retries delay (Z.to_nat retries) Hd 1 None ltac:(lia) ltac:(lia)) as H.
    rewrite Z2Nat.id in H by lia.
    destruct (retry_loop run retries delay (seqZ 1 retries) None) as [r evs].
    split; [intros; lia|]. intros _. exact H.
Qed.
(** A clone whose first attempt fails and whose second succeeds. *)
Definition run_second (attempt : Z) : run_result :=
  if (attempt =? 1)%Z then RunFailed "Command failed: git clone --mirror" else RunOk.

Lemma run_git_with_retry_attempts_witness :
  run_git_with_retry run_second 3 15 = (Ok tt, [RAttempt 1; RSleep 15; RAttempt 2]) /\
  exists k, (1 <= k <= 3)%Z /\
    (forall j, (1 <= j < k)%Z -> exists m, run_second j = RunFailed m) /\
    [RAttempt 1; RSleep 15; RAttempt 2] =
      (concat ((fun j => [RAttempt j; RSleep 15]) <$> seqZ 1 (k - 1)) ++ [RAttempt k])%list /\
    Ok tt = run_outcome (run_second k) /\
    (forall m, run_second k = RunFailed m -> k = 3%Z).
Proof.
  pose proof (run_git_with_retry_attempts run_second 3 15 ltac:(lia)) as H.
  assert (Hr : run_git_with_retry run_second 3 15 = (Ok tt, [RAttempt 1; RSleep 15; RAttempt 2]))
    by reflexivity.
  rewrite Hr in H. split; [exact Hr|]. destruct H as [_ H]. exact (H ltac:(lia)).
Defined.
End Retry.

Module StripFacts.

Lemma lstrip_chars_cons (l : list ascii) (c : ascii) (r : list ascii) :
  lstrip_chars l = c :: r -> py_isspace c = false.
Proof.
  induction l as [|x l IH]; simpl; [discriminate|].
  destruct (py_isspace x) eqn:Hx; [exact IH|]. intros [= <- _]. exact Hx.
Qed.

Lemma lstrip_chars_nil (l : list ascii) :
  lstrip_chars l = [] <-> Forall (fun c => py_isspace c = true) l.
Proof.
  induction l as [|x l IH]; simpl; [split; auto|].
  destruct (py_isspace x) eqn:Hx.
  - rewrite IH. split; [intros H; constructor; auto|intros H; inversion H; auto].
  - split; [discriminate|intros H; inversion H; congruence].
Qed.

Lemma string_of_list_ascii_nil (l : list ascii) : string_of_list_ascii l = "" <-> l = [].
Proof. destruct l; simpl; split; congruence. Qed.

(** [s.strip()] is empty exactly when [s] is all whitespace. *)
Lemma py_strip_empty (s : string) :
  py_strip s = "" <-> Forall (fun c => py_isspace c = true) (list_ascii_of_string s).
Proof.
  unfold py_strip. rewrite string_of_list_ascii_nil. split.
  - intros H. apply (f_equal (@rev ascii)) in H. rewrite rev_involutive in H.
    simpl in H. apply lstrip_chars_nil in H.
    apply Forall_rev in H. rewrite rev_involutive in H.
    destruct (lstrip_chars (list_ascii_of_string s)) as [|c r] eqn:Hl.
    + by apply lstrip_chars_nil.
    + apply lstrip_chars_cons in Hl. inversion H; congruence.
  - intros H. apply lstrip_chars_nil in H. rewrite H. reflexivity.
Qed.

Lemma py_strip_nil : py_strip "" = "".
Proof. reflexivity. Qed.

Lemma py_lower_empty (s : string) : py_lower s = "" <-> s = "".
Proof. destruct s as [|a s]; [split; reflexivity|]. split; intros H; discriminate H. Qed.

End StripFacts.

Module Prompts.
Import Interactive StripFacts.

(** [prompt] without a default skips the blank answers and returns the
    first non-blank answer, stripped; at the end of input it raises
    [EOFError] after consuming only blank answers. *)
Theorem prompt_without_default (inputs : list string) :
  match prompt None inputs with
  | (Ok v, rest) =>
      v <> "" /\
      exists blanks line, inputs = (blanks ++ line :: rest)%list /\
        Forall (fun b => py_strip b = "") blanks /\ v = py_strip line
  | (Raise e, rest) =>
      e = EOFError /\ rest = [] /\ Forall (fun b => py_strip b = "") inputs
  end.
Proof.
  induction inputs as [|line inputs IH]; simpl; [auto|].
  unfold truthy. destruct (String.eqb_spec (py_strip line) "") as [Hb|Hb]; simpl.
  - destruct (prompt None inputs) as [[v|e] rest].
    + destruct IH as (Hv & blanks & l & -> & Hf & ->). split; [exact Hv|].
      exists (line :: blanks), l. split; [reflexivity|]. split; [constructor; auto|reflexivity].
    + destruct IH as (-> & -> & Hf). split; [reflexivity|]. split; [reflexivity|]. constructor; auto.
  - split; [exact Hb|]. exists [], line. auto.
Qed.

(** [prompt_yes_no] skips the answers it does not recognise; the first
    recognised answer decides: blank gives the default, "y" or "yes" gives
    true, "n" or "no" gives false (ignoring case and surrounding spaces).
    At the end of input it raises [EOFError]. *)
Theorem prompt_yes_no_answer (default : bool) (inputs : list string) :
  match prompt_yes_no default inputs with
  | (Ok b, rest) =>
      exists skipped line, inputs = (skipped ++ line :: rest)%list /\
        Forall (fun l => py_lower (py_strip l) ∉ [""; "y"; "yes"; "n"; "no"]) skipped /\
        ((py_lower (py_strip line) = "" /\ b = default) \/
         (py_lower (py_strip line) ∈ ["y"; "yes"] /\ b = true) \/
         (py_lower (py_strip line) ∈ ["n"; "no"] /\ b = false))
  | (Raise e, rest) =>
      e = EOFError /\ rest = [] /\
      Forall (fun l => py_lower (py_strip l) ∉ [""; "y"; "yes"; "n"; "no"]) inputs
  end.
Proof.
  induction inputs as [|line inputs IH]; simpl; [auto|].
  unfold truthy.
  destruct (String.eqb_spec (py_lower (py_strip line)) "") as [He|He]; simpl.
  { exists [], line. split; [reflexivity|]. split; [constructor|]. left; auto. }
  destruct (bool_decide_reflect (py_lower (py_strip line) ∈ ["y"; "yes"])) as [Hy|Hy].
  { exists [], line. split; [reflexivity|]. split; [constructor|]. right; left; auto. }
  destruct (bool_decide_reflect (py_lower (py_strip line) ∈ ["n"; "no"])) as [Hn|Hn].
  { exists [], line. split; [reflexivity|]. split; [constructor|]. right; right; auto. }
  assert (Hskip : py_lower (py_strip line) ∉ [""; "y"; "yes"; "n"; "no"]).
  { intros H. repeat (apply elem_of_cons in H as [H|H]); try by apply not_elem_of_nil in H.
    - exact (He H).
    - apply Hy. rewrite H. apply elem_of_cons; auto.
    - apply Hy. rewrite H. apply elem_of_cons; right; apply elem_of_cons; auto.
    - apply Hn. rewrite H. apply elem_of_cons; auto.
    - apply Hn. rewrite H. apply elem_of_cons; right; apply elem_of_cons; auto. }
  destruct (prompt_yes_no default inputs) as [[b|e] rest].
  - destruct IH as (skipped & l & -> & Hf & Hl).
    exists (line :: skipped), l. split; [reflexivity|]. split; [constructor; auto|exact Hl].
  - destruct IH as (-> & -> & Hf). split; [reflexivity|]. split; [reflexivity|]. constructor; auto.
Qed.
End Prompts.

Module Picking.
Import Interactive.

(** Every selected entry [i] is the repository at position [i] (from 1). *)
Definition sel_inv (repos : list BitbucketRepo.t) (m : gmap nat BitbucketRepo.t) : Prop :=
  forall i r, m !! i = Some r -> (1 <= i)%nat /\ repos !! (i - 1)%nat = Some r.

Lemma sel_inv_empty repos : sel_inv repos ∅.
Proof. intros i r H. by rewrite lookup_empty in H. Qed.

Lemma sel_inv_select_index repos m i :
  sel_inv repos m -> (1 <= i)%nat -> sel_inv repos (select_index repos m i).
Proof.
  intros Hm Hi. unfold select_index.
  destruct (repos !! (i - 1)%nat) as [r|] eqn:Hr; [|exact Hm].
  intros j r' Hj. apply lookup_insert_Some in Hj as [[<- <-]|[_ Hj]]; [auto|exact (Hm j r' Hj)].
Qed.

Lemma sel_inv_fold_select repos (l : list nat) m :
  Forall (fun i => 1 <= i)%nat l -> sel_inv repos m ->
  sel_inv repos (fold_left (select_index repos) l m).
Proof.
  revert m. induction l as [|i l IH]; simpl; intros m Hl Hm; [exact Hm|].
  inversion Hl; subst. apply IH; [assumption|]. apply sel_inv_select_index; assumption.
Qed.

Lemma sel_inv_select_all repos : sel_inv repos (select_all repos).
Proof.
  apply sel_inv_fold_select; [|apply sel_inv_empty].
  apply Forall_forall. intros i Hi. apply elem_of_seq in Hi. lia.
Qed.

Lemma sel_inv_range repos total (l : list nat) m :
  sel_inv repos m ->
  sel_inv repos (fold_left (fun sel i =>
                   if ((1 <=? i) && (i <=? total))%nat then select_index repos sel i else sel) l m).
Proof.
  revert m. induction l as [|i l IH]; cbn [fold_left]; intros m Hm; [exact Hm|].
  apply IH. destruct ((1 <=? i) && (i <=? total))%nat eqn:Hb; [|exact Hm].
  apply andb_true_iff in Hb as [Hb _]. apply Nat.leb_le in Hb.
  apply sel_inv_select_index; assumption.
Qed.

Lemma sel_inv_pick_part repos total m part :
  sel_inv repos m -> sel_inv repos (pick_part repos total m part).
Proof.
  intros Hm. unfold pick_part; cbv zeta.
  destruct (negb (truthy (py_strip part))); [exact Hm|].
  destruct (py_contains "-" (py_strip part)).
  - destruct (span_until "-" (py_strip part)) as [[a b]|]; [|exact Hm].
    destruct (py_isdigit a && py_isdigit b); [|exact Hm]. apply sel_inv_range, Hm.
  - destruct (py_isdigit (py_strip part)); [|exact Hm].
    destruct ((1 <=? py_int (py_strip part)) && (py_int (py_strip part) <=? total))%nat eqn:Hb;
      [|exact Hm].
    apply andb_true_iff in Hb as [Hb _]. apply Nat.leb_le in Hb.
    apply sel_inv_select_index; assumption.
Qed.

Lemma sel_inv_parts repos total (parts : list string) m :
  sel_inv repos m -> sel_inv repos (fold_left (pick_part repos total) parts m).
Proof.
  revert m. induction parts as [|p parts IH]; simpl; intros m Hm; [exact Hm|].
  apply IH, sel_inv_pick_part, Hm.
Qed.

Lemma omap_ext_Forall {A B} (f g : A -> option B) (l : list A) :
  Forall (fun x => f x = g x) l -> omap f l = omap g l.
Proof.
  induction 1 as [|x l Hx _ IH]; [done|]. csimpl. rewrite Hx.
  destruct (g x); [|done]. by f_equal.
Qed.

(** Positions taken in increasing order pick a sublist. *)
Lemma omap_sorted_sublist (repos : list BitbucketRepo.t) :
  forall (off : nat) (ks : list nat),
  StronglySorted lt ks -> Forall (fun k => off < k)%nat ks ->
  omap (fun k => repos !! (k - S off)%nat) ks `sublist_of` repos.
Proof.
  induction repos as [|x xs IH]; intros off ks Hs Hf.
  - induction ks as [|k ks IHk]; csimpl; [constructor|].
    inversion Hs; inversion Hf; subst. apply IHk; assumption.
  - assert (Hshift : forall l, Forall (fun k => S off < k)%nat l ->
              omap (fun k => (x :: xs) !! (k - S off)%nat) l =
              omap (fun k => xs !! (k - S (S off))%nat) l).
    { intros l Hl. apply omap_ext_Forall. eapply Forall_impl; [exact Hl|].
      intros k Hk. simpl in Hk |- *. replace (k - S off)%nat with (S (k - S (S off))) by lia. reflexivity. }
    destruct ks as [|k ks]; [apply sublist_nil_l|].
    apply StronglySorted_inv in Hs as [Hs' Hlt]. apply Forall_cons in Hf as [Hk Hf'].
    destruct (decide (k = S off)) as [->|Hne].
    + csimpl. rewrite Nat.sub_diag. simpl.
      rewrite Hshift by (eapply Forall_impl; [exact Hlt|]; intros ? ?; simpl in *; lia).
      apply sublist_skip, IH; [exact Hs'|]. eapply Forall_impl; [exact Hlt|]; intros ? ?; simpl in *; lia.
    + rewrite Hshift.
      2:{ constructor; [lia|]. eapply Forall_impl; [exact Hlt|]; intros ? ?; simpl in *; lia. }
      apply sublist_cons, IH; [constructor; assumption|].
      constructor; [lia|]. eapply Forall_impl; [exact Hlt|]; intros ? ?; simpl in *; lia.
Qed.

Lemma sorted_selection_sublist repos m :
  sel_inv repos m -> m <> ∅ ->
  sorted_selection m <> [] /\ sorted_selection m `sublist_of` repos.
Proof.
  intros Hm Hne. unfold sorted_selection.
  set (ks := merge_sort Nat.le (map_to_list m).*1).
  assert (Hperm : ks ≡ₚ (map_to_list m).*1) by (unfold ks; apply merge_sort_Permutation).
  assert (Hnd : NoDup ks) by (rewrite Hperm; apply NoDup_fst_map_to_list).
  assert (Hss : StronglySorted Nat.le ks) by (unfold ks; apply StronglySorted_merge_sort; apply _).
  assert (Hkeys : forall k, k ∈ ks -> exists r, m !! k = Some r).
  { intros k Hk. rewrite Hperm in Hk. apply list_elem_of_fmap in Hk as [[k' r] [-> Hkr]].
    exists r. by apply elem_of_map_to_list. }
  assert (Hlt : StronglySorted lt ks).
  { clear Hkeys Hperm. induction Hss as [|k l Hl IH Hf]; constructor.
    - apply IH. by inversion Hnd.
    - inversion Hnd as [|? ? Hnot _]; subst. eapply Forall_forall. intros k' Hk'.
      assert (k <= k')%nat by (eapply Forall_forall in Hf; eauto).
      destruct (decide (k = k')) as [->|]; [contradiction|lia]. }
  assert (Heq : omap (fun i => m !! i) ks = omap (fun k => repos !! (k - 1)%nat) ks).
  { apply omap_ext_Forall, Forall_forall. intros k Hk.
    destruct (Hkeys k Hk) as [r Hr]. rewrite Hr. symmetry. exact (proj2 (Hm k r Hr)). }
  split.
  - destruct ks as [|k ks'] eqn:Hks.
    + symmetry in Hperm. apply Permutation_nil_r in Hperm. apply fmap_nil_inv, map_to_list_empty_iff in Hperm.
      contradiction.
    + destruct (Hkeys k ltac:(apply elem_of_cons; left; reflexivity)) as [r Hr]. csimpl. rewrite Hr. discriminate.
  - rewrite Heq. apply (omap_sorted_sublist repos 0); [exact Hlt|].
    apply Forall_forall. intros k Hk. destruct (Hkeys k Hk) as [r Hr]. exact (proj1 (Hm k r Hr)).
Qed.

Lemma pick_loop_result repos m inputs :
  sel_inv repos m ->
  match pick_loop repos m inputs with
  | (Ok sel, _) => sel <> [] /\ sel `sublist_of` repos
  | (Raise e, rest) => e = EOFError /\ rest = []
  end.
Proof.
  revert m. induction inputs as [|line inputs IH]; simpl; intros m Hm; [auto|].
  destruct (negb (truthy (py_lower (py_strip line)))); [apply IH, Hm|].
  destruct (String.eqb _ "all"); [apply IH, sel_inv_select_all|].
  destruct (String.eqb _ "none"); [apply IH, sel_inv_empty|].
  destruct (String.eqb _ "done").
  - destruct (bool_decide_reflect (m = ∅)) as [He|He]; [apply IH, Hm|].
    apply sorted_selection_sublist; assumption.
  - apply IH, sel_inv_parts, Hm.
Qed.

(** [pick_repos] returns a non-empty selection of the listed repositories,
    in their listed order and without repetition; at the end of input it
    raises [EOFError]. *)
Theorem pick_repos_sublist (repos : list BitbucketRepo.t) (inputs : list string) :
  match pick_repos repos inputs with
  | (Ok selected, _) => selected <> [] /\ selected `sublist_of` repos
  | (Raise e, rest) => e = EOFError /\ rest = []
  end.
Proof. apply pick_loop_result, sel_inv_empty. Qed.

End Picking.

Module Editing.
Import Interactive StripFacts.

(** The plans after some edits, against the plans before them. *)
Definition edit_inv (plans0 ps : list RepoPlan.t) : Prop :=
  length ps = length plans0 /\
  forall j p, plans0 !! j = Some p ->
    exists p', ps !! j = Some p' /\
      RepoPlan.source p' = RepoPlan.source p /\
      RepoPlan.status p' = RepoPlan.status p /\
      (RepoPlan.target_owner p' = RepoPlan.target_owner p \/ RepoPlan.target_owner p' <> "") /\
      (RepoPlan.target_name p' = RepoPlan.target_name p \/ RepoPlan.target_name p' <> "").

Lemma edit_inv_refl plans : edit_inv plans plans.
Proof.
  split; [reflexivity|]. intros j p Hp. exists p. repeat split; auto.
Qed.

Lemma edit_inv_alter plans0 ps (f : RepoPlan.t -> RepoPlan.t) (k : nat) :
  (forall q, RepoPlan.source (f q) = RepoPlan.source q /\
             RepoPlan.status (f q) = RepoPlan.status q /\
             (RepoPlan.target_owner (f q) = RepoPlan.target_owner q \/ RepoPlan.target_owner (f q) <> "") /\
             (RepoPlan.target_name (f q) = RepoPlan.target_name q \/ RepoPlan.target_name (f q) <> "")) ->
  edit_inv plans0 ps -> edit_inv plans0 (alter f k ps).
Proof.
  intros Hf [Hlen Hinv]. split; [by rewrite length_alter|].
  intros j p Hp. destruct (Hinv j p Hp) as (p' & Hp' & Hs & Hst & Ho & Hn).
  destruct (decide (j = k)) as [->|Hne].
  - exists (f p'). rewrite list_lookup_alter_eq, Hp'. split; [reflexivity|].
    destruct (Hf p') as (Hs' & Hst' & Ho' & Hn'). rewrite Hs', Hst'.
    split; [exact Hs|]. split; [exact Hst|].
    split; [destruct Ho' as [->|Ho']; auto|destruct Hn' as [->|Hn']; auto].
  - exists p'. rewrite list_lookup_alter_ne by congruence. auto.
Qed.


(** The second field of [raw.split(None, 1)] is not blank. *)
Lemma py_split_ws1_second (raw part0 part1 : string) :
  py_split_ws1 raw = [part0; part1] -> py_strip part1 <> "".
Proof.
  unfold py_split_ws1.
  destruct (lstrip_chars (list_ascii_of_string raw)) as [|c l]; [discriminate|].
  destruct (span_token (c :: l)) as [tok rest].
  destruct (lstrip_chars rest) as [|c' r'] eqn:Hr; [discriminate|].
  intros [= _ <-]. rewrite py_strip_empty. cbn [list_ascii_of_string].
  intros H. apply lstrip_chars_cons in Hr. inversion H; congruence.
Qed.

(** [edit_plans] returns as many plans as it was given, each with its
    source and status unchanged; an edited target owner or name is never
    blank. At the end of input it raises [EOFError]. *)
Theorem edit_plans_keeps_sources (plans : list RepoPlan.t) (inputs : list string) :
  match edit_plans plans inputs with
  | (Ok plans', _) =>
      length plans' = length plans /\
      forall j p, plans !! j = Some p ->
        exists p', plans' !! j = Some p' /\
          RepoPlan.source p' = RepoPlan.source p /\
          RepoPlan.status p' = RepoPlan.status p /\
          (RepoPlan.target_owner p' = RepoPlan.target_owner p \/ RepoPlan.target_owner p' <> "") /\
          (RepoPlan.target_name p' = RepoPlan.target_name p \/ RepoPlan.target_name p' <> "")
  | (Raise e, rest) => e = EOFError /\ rest = []
  end.
Proof.
  cut (forall ps, edit_inv plans ps ->
         match edit_plans ps inputs with
         | (Ok plans', _) => edit_inv plans plans'
         | (Raise e, rest) => e = EOFError /\ rest = []
         end).
  { intros H. specialize (H plans (edit_inv_refl plans)).
    destruct (edit_plans plans inputs) as [[plans'|e] rest]; exact H. }
  induction inputs as [|line inputs IH]; intros ps Hps; cbn [edit_plans]; [auto|].
  cbv zeta.
  destruct (negb (truthy (py_strip line))); [apply IH, Hps|].
  destruct (String.eqb _ "done"); [exact Hps|].
  destruct (py_split_ws1 (py_strip line)) as [|part0 [|part1 [|]]] eqn:Hsplit;
    try (apply IH, Hps).
  destruct (negb (py_isdigit part0)); [apply IH, Hps|].
  destruct (negb _); [apply IH, Hps|].
  destruct (py_contains "/" (py_strip part1)).
  - destruct (span_until "/" (py_strip part1)) as [[owner name]|]; [|apply IH, Hps].
    destruct (negb (truthy (py_strip owner)) || negb (truthy (py_strip name))) eqn:Hb;
      [apply IH, Hps|].
    apply orb_false_iff in Hb as [Ho Hn]. unfold truthy in Ho, Hn.
    apply negb_false_iff, negb_true_iff, String.eqb_neq in Ho.
    apply negb_false_iff, negb_true_iff, String.eqb_neq in Hn.
    apply IH, edit_inv_alter; [|exact Hps].
    intros q. simpl. auto.
  - apply IH, edit_inv_alter; [|exact Hps].
    intros q. simpl. split; [reflexivity|]. split; [reflexivity|]. split; [auto|].
    right. exact (py_split_ws1_second _ _ _ Hsplit).
Qed.
End Editing.

Module DotenvFacts.
Import Dotenv.

Lemma dotenv_line_assignment (env : environ) (raw : string) :
  dotenv_line env raw =
    match dotenv_assignment raw with
    | Some (k, v) => if bool_decide (env !! k = None) then <[k := v]> env else env
    | None => env
    end.
Proof.
  unfold dotenv_line, dotenv_assignment.
  destruct (_ || _ || _); [reflexivity|].
  destruct (span_until "=" (py_strip raw)) as [[key value]|]; [|reflexivity].
  destruct (truthy (py_strip key)); reflexivity.
Qed.

Lemma dotenv_lines_keep (lines : list string) (env : environ) (k v : string) :
  env !! k = Some v -> fold_left dotenv_line lines env !! k = Some v.
Proof.
  revert env. induction lines as [|raw lines IH]; intros env Hk; [exact Hk|].
  simpl. apply IH. rewrite dotenv_line_assignment.
  destruct (dotenv_assignment raw) as [[k' v']|]; [|exact Hk].
  case_bool_decide as Hn; [|exact Hk].
  rewrite lookup_insert_ne; [exact Hk|congruence].
Qed.

Lemma dotenv_lines_first (lines : list string) (env : environ) (k v : string) :
  env !! k = None ->
  (fold_left dotenv_line lines env !! k = Some v <->
   exists pre raw post, lines = (pre ++ raw :: post)%list /\
     dotenv_assignment raw = Some (k, v) /\
     Forall (fun r => forall v', dotenv_assignment r <> Some (k, v')) pre).
Proof.
  revert env. induction lines as [|raw lines IH]; intros env Hk.
  - simpl. rewrite Hk. split; [discriminate|].
    intros (pre & raw & post & Heq & _). destruct pre; discriminate.
  - simpl. rewrite dotenv_line_assignment.
    destruct (dotenv_assignment raw) as [[k' v']|] eqn:Ha.
    + destruct (decide (k' = k)) as [->|Hne].
      * rewrite bool_decide_true by exact Hk.
        rewrite (dotenv_lines_keep _ _ k v') by (apply lookup_insert_eq).
        split.
        -- intros [= ->]. exists [], raw, lines. auto.
        -- intros (pre & r & post & Heq & Hr & Hpre).
           destruct pre as [|r0 pre]; simpl in Heq; injection Heq as -> ->.
           ++ congruence.
           ++ apply Forall_cons in Hpre as [H0 _]. exfalso; exact (H0 v' Ha).
      * assert (Hk' : (if bool_decide (env !! k' = None) then <[k':=v']> env else env) !! k = None).
        { case_bool_decide; [rewrite lookup_insert_ne by congruence|]; exact Hk. }
        rewrite (IH _ Hk'). split.
        -- intros (pre & r & post & -> & Hr & Hpre). exists (raw :: pre), r, post.
           split; [reflexivity|]. split; [exact Hr|]. constructor; [|exact Hpre].
           intros v0 H0. rewrite Ha in H0. congruence.
        -- intros (pre & r & post & Heq & Hr & Hpre).
           destruct pre as [|r0 pre]; simpl in Heq; injection Heq as -> Heq.
           ++ rewrite Ha in Hr. congruence.
           ++ apply Forall_cons in Hpre as [_ Hpre]. exists pre, r, post. auto.
    + rewrite (IH _ Hk). split.
      * intros (pre & r & post & -> & Hr & Hpre). exists (raw :: pre), r, post.
        split; [reflexivity|]. split; [exact Hr|]. constructor; [|exact Hpre].
        intros v0 H0. rewrite Ha in H0. discriminate.
      * intros (pre & r & post & Heq & Hr & Hpre).
        destruct pre as [|r0 pre]; simpl in Heq; injection Heq as -> Heq.
        -- rewrite Ha in Hr. discriminate.
        -- apply Forall_cons in Hpre as [_ Hpre]. exists pre, r, post. auto.
Qed.

(** [load_dotenv] does nothing without a file; with one, it never changes a
    variable already set, and a variable not set before gets the value of
    the first line that assigns it, if any. *)
Theorem load_dotenv_first_wins (env : environ) (file : option (list string)) (k : string) :
  match file with
  | None => load_dotenv env file = env
  | Some lines =>
      (forall v, env !! k = Some v -> load_dotenv env file !! k = Some v) /\
      (env !! k = None -> forall v,
         load_dotenv env file !! k = Some v <->
         exists pre raw post, lines = (pre ++ raw :: post)%list /\
           dotenv_assignment raw = Some (k, v) /\
           Forall (fun r => forall v', dotenv_assignment r <> Some (k, v')) pre)
  end.
Proof.
  destruct file as [lines|]; [|reflexivity]. simpl. split.
  - intros v. apply dotenv_lines_keep.
  - intros Hk v. apply dotenv_lines_first, Hk.
Qed.

End DotenvFacts.
